(** * classif.ai front end (src/App.jsx): upload zone, results view and
      the App controller, embedded as executable definitions.

    Strings are JavaScript strings restricted to the characters the code
    inspects, numbers are integers, arrays are lists, [null] is [None].
    Handlers are functions from the event payload to the effects they
    perform; the App controller is a transition system whose labels are the
    events the JavaScript event loop can deliver (user gestures, timer
    ticks, settled fetches). *)

From Stdlib Require Import Ascii String.
From stdpp Require Import gmap strings list fin_maps pretty sorting.

Open Scope string_scope.

(** [String.prototype.startsWith]: [s.startsWith(p)]. *)
Definition startsWith (s p : string) : bool := String.prefix p s.

(** A browser [File]: the code reads only its MIME [type]. *)
Record File := mkFile { name : string; type : string }.

(** [files[0]] on a [FileList]: [undefined] (here [None]) when empty. *)
Definition first_file (files : list File) : option File := head files.

(* ------------------------------------------------------------------ *)
(** ** UploadZone (lines 78-174) *)

Module UploadZone.

(** What a handler of the component does: its writes to [isDragging],
    whether it called [e.preventDefault()], and its calls to the
    [onFileSelect] prop, in order. *)
Record Effect := mkEffect {
  setIsDragging : option bool;
  preventDefault : bool;
  onFileSelect : list File
}.

Definition handleDragOver : Effect :=
  {| setIsDragging := Some true; preventDefault := true; onFileSelect := [] |}.

Definition handleDragLeave : Effect :=
  {| setIsDragging := Some false; preventDefault := false; onFileSelect := [] |}.

(** [handleDrop] (lines 91-98), argument [e.dataTransfer.files]. *)
Definition handleDrop (files : list File) : Effect :=
  {| setIsDragging := Some false;
     preventDefault := true;
     onFileSelect :=
       match first_file files with
       | Some file => if startsWith (type file) "image/" then [file] else []
       | None => []
       end |}.

(** [handleFileInput] (lines 100-105), argument [e.target.files]. *)
Definition handleFileInput (files : list File) : Effect :=
  {| setIsDragging := None;
     preventDefault := false;
     onFileSelect :=
       match first_file files with
       | Some file => [file]
       | None => []
       end |}.

(** The part of the rendered tree that decides which events reach the
    handlers (lines 113-132 and 155-167). *)
Record Rendered := mkRendered {
  zoneClassName : list string;   (* class tokens of the drop zone [div] *)
  inputAccept : string;
  inputDisabled : bool;
  buttonDisabled : bool
}.

Definition render (isProcessing : bool) : Rendered :=
  {| zoneClassName :=
       ["relative"; "border-4"; "border-dashed"; "rounded-3xl"; "p-12";
        "text-center"; "cursor-pointer"; "transition-all"; "duration-300";
        "shadow-xl"]
       ++ (if isProcessing then ["opacity-50"; "pointer-events-none"] else []);
     inputAccept := "image/*";
     inputDisabled := isProcessing;
     buttonDisabled := isProcessing |}.

Definition hasClass (c : string) (cls : list string) : bool :=
  existsb (String.eqb c) cls.

(** The handlers of the component, to record which of them ran. *)
Inductive Handler := HDrop | HZoneClick | HButtonClick | HFileInput.

(** User interactions with the zone. A click that opens the file dialog
    carries the files the user then picks there; [ChangeInput] is a change
    of the file input by any other route. The [accept] attribute only
    presets the dialog's filter: the user can pick any file. *)
Inductive Gesture :=
| DropOnZone (files : list File)
| ClickZone (picked : list File)
| ClickButton (picked : list File)
| ChangeInput (picked : list File).

Record Dispatched := mkDispatched {
  ran : list Handler;
  selected : list File
}.

Definition nothing : Dispatched := {| ran := []; selected := [] |}.

(** A disabled input fires no change event. *)
Definition inputChange (v : Rendered) (picked : list File) : Dispatched :=
  if inputDisabled v then nothing
  else {| ran := [HFileInput];
          selected := onFileSelect (handleFileInput picked) |}.

(** [fileInputRef.current?.click()]: on a disabled input nothing happens;
    otherwise the dialog opens and the pick fires [onChange]. *)
Definition inputClick (v : Rendered) (picked : list File) : Dispatched :=
  if inputDisabled v then nothing else inputChange v picked.

Definition after (h : Handler) (d : Dispatched) : Dispatched :=
  {| ran := h :: ran d; selected := selected d |}.

(** The zone and its children take pointer and drag events unless the
    zone has the class [pointer-events-none], Tailwind's
    [pointer-events: none], which the children inherit. *)
Definition takesPointerEvents (v : Rendered) : bool :=
  negb (hasClass "pointer-events-none" (zoneClassName v)).

(** Browser dispatch over the rendered tree: which handlers a gesture
    runs and which files they pass to [onFileSelect]. *)
Definition dispatch (isProcessing : bool) (g : Gesture) : Dispatched :=
  let v := render isProcessing in
  match g with
  | DropOnZone files =>
      if takesPointerEvents v
      then {| ran := [HDrop]; selected := onFileSelect (handleDrop files) |}
      else nothing
  | ClickZone picked =>
      (* onClick={() => !isProcessing && fileInputRef.current?.click()} *)
      if takesPointerEvents v
      then after HZoneClick
             (if negb isProcessing then inputClick v picked else nothing)
      else nothing
  | ClickButton picked =>
      (* a disabled button fires no click;
         e.stopPropagation(); fileInputRef.current?.click() *)
      if takesPointerEvents v && negb (buttonDisabled v)
      then after HButtonClick (inputClick v picked)
      else nothing
  | ChangeInput picked => inputChange v picked
  end.

End UploadZone.

(* ------------------------------------------------------------------ *)
(** ** ResultsView (lines 232-355) *)

(** The results payload of [GET /api/results/{jobId}]. *)
Record Issue := mkIssue { number : Z; error : string }.

Record GradingResult := mkGradingResult {
  total_grade : string;
  sections : list Issue;
  pdfAnnotatedUrl : string
}.

Definition API_BASE_URL : string := "http://localhost:5000".

Module ResultsView.

Definition green : string := "linear-gradient(to bottom right, #10b981, #059669)".
Definition blue : string := "linear-gradient(to bottom right, #4A9FD8, #2E6FA8)".
Definition amber : string := "linear-gradient(to bottom right, #FFD966, #FFA500)".
Definition red : string := "linear-gradient(to bottom right, #ef4444, #dc2626)".

(** [getGradeColor] (lines 233-238). *)
Definition getGradeColor (grade : string) : string :=
  if startsWith grade "A" then green
  else if startsWith grade "B" then blue
  else if startsWith grade "C" then amber
  else red.

(** One row of the issues list (lines 326-348). *)
Record IssueRow := mkIssueRow {
  key : nat;
  badge : Z;          (* {error.number} *)
  text : string       (* {error.error} *)
}.

(** [array.map((error, index) => ...)]. *)
Fixpoint map_index {A B} (f : A -> nat -> B) (index : nat) (l : list A) : list B :=
  match l with
  | [] => []
  | x :: l' => f x index :: map_index f (S index) l'
  end.

Record Display := mkDisplay {
  gradeBackground : string;
  gradeText : string;
  summary : string;
  imageSrc : string;
  issuesSection : option (list IssueRow)   (* [None]: the block is not rendered *)
}.

Definition ResultsView (results : GradingResult) (annotatedImageUrl : string)
  : Display :=
  let n := length (sections results) in
  {| gradeBackground := getGradeColor (total_grade results);
     gradeText := total_grade results;
     summary :=
       if Nat.eqb n 0 then "Perfect! No errors found."
       else pretty n ++ " issue" ++ (if negb (Nat.eqb n 1) then "s" else "")
            ++ " identified";
     imageSrc := API_BASE_URL ++ annotatedImageUrl;
     issuesSection :=
       if Nat.ltb 0 n
       then Some (map_index
                    (fun err index =>
                       {| key := index; badge := number err; text := error err |})
                    0 (sections results))
       else None |}.

(** The spec's tiers, and the bucket of a grade by its leading letter. *)
Inductive Tier := Best | Second | Third | Worst.

Definition tierColor (t : Tier) : string :=
  match t with Best => green | Second => blue | Third => amber | Worst => red end.

Definition spec_bucket (grade : string) : Tier :=
  match grade with
  | String "A"%char _ => Best
  | String "B"%char _ => Second
  | String "C"%char _ => Third
  | _ => Worst
  end.

End ResultsView.

(* ------------------------------------------------------------------ *)
(** ** App (lines 358-509) *)

Module App.

(** [currentStep]: ['upload' | 'processing' | 'results']. *)
Inductive Step := Upload | Processing | Results.

(** The five [useState] cells (lines 359-363). *)
Record State := mkState {
  currentStep : Step;
  jobId : option string;
  progress : Z;
  message : string;
  results : option GradingResult
}.

Definition initial : State :=
  {| currentStep := Upload; jobId := None; progress := 0; message := "";
     results := None |}.

(** A [fetch] whose promise has not settled yet, with the variables its
    continuation closes over. *)
Inductive Request :=
| PostGrade (file : File)                    (* line 374, in handleFileSelect *)
| GetStatus (interval : nat) (id : string)   (* line 396, in the timer callback *)
| GetResults (interval : nat) (id : string). (* line 407, in the timer callback *)

(** How an awaited request settles. [Failure] is a rejected [fetch], a
    response that is not [ok], or a body [json()] rejects: each of them
    throws at the await. The other three are the JSON bodies of
    [POST /api/grade], [GET /api/grade/:id] and [GET /api/results/:id]. *)
Inductive Response :=
| Failure
| JobCreated (newJobId : string)
| JobStatus (status : string) (newProgress : Z) (newMessage : string)
| JobResults (resultsData : GradingResult).

(** The component state together with what the browser holds for it:
    the child [<AnimatePresence mode="wait">] (line 441) has mounted, by
    its key; the live [setInterval] timers (each with the [id] its
    callback closes over); the requests in flight; and the [alert]s shown
    so far, most recent first. Timer and request numbers are never
    reused. The [console.error] calls change nothing and are left out.

    When the JSX hands [AnimatePresence] a child with another key, the
    old child stays mounted, and usable, while its exit animation runs;
    the current child is mounted when the exit has ended. So [mounted]
    follows [currentStep] with a lag, and the handlers of an exiting
    screen still run. *)
Record World := mkWorld {
  app : State;
  mounted : option Step;
  intervals : gmap nat string;
  nextInterval : nat;
  inflight : gmap nat Request;
  nextRequest : nat;
  alerts : list string
}.

Definition start : World :=
  {| app := initial; mounted := Some Upload; intervals := ∅; nextInterval := 0;
     inflight := ∅; nextRequest := 0; alerts := [] |}.

Definition with_app (f : State -> State) (w : World) : World :=
  {| app := f (app w); mounted := mounted w; intervals := intervals w;
     nextInterval := nextInterval w; inflight := inflight w;
     nextRequest := nextRequest w; alerts := alerts w |}.

(** The key of the child the JSX hands to [AnimatePresence] (lines 442,
    462 and 473): none in step 'results' while [results] is null. *)
Definition child_key (s : State) : option Step :=
  match currentStep s, results s with
  | Upload, _ => Some Upload
  | Processing, _ => Some Processing
  | Results, Some _ => Some Results
  | Results, None => None
  end.

(** The exit animation has ended (or there was none to run):
    [AnimatePresence] mounts the child of the current state. *)
Definition present (w : World) : World :=
  {| app := app w; mounted := child_key (app w); intervals := intervals w;
     nextInterval := nextInterval w; inflight := inflight w;
     nextRequest := nextRequest w; alerts := alerts w |}.

Definition setCurrentStep (v : Step) : World -> World :=
  with_app (fun s => {| currentStep := v; jobId := jobId s; progress := progress s;
                        message := message s; results := results s |}).
Definition setJobId (v : option string) : World -> World :=
  with_app (fun s => {| currentStep := currentStep s; jobId := v; progress := progress s;
                        message := message s; results := results s |}).
Definition setProgress (v : Z) : World -> World :=
  with_app (fun s => {| currentStep := currentStep s; jobId := jobId s; progress := v;
                        message := message s; results := results s |}).
Definition setMessage (v : string) : World -> World :=
  with_app (fun s => {| currentStep := currentStep s; jobId := jobId s;
                        progress := progress s; message := v; results := results s |}).
Definition setResults (v : option GradingResult) : World -> World :=
  with_app (fun s => {| currentStep := currentStep s; jobId := jobId s;
                        progress := progress s; message := message s; results := v |}).

Definition alert (msg : string) (w : World) : World :=
  {| app := app w; mounted := mounted w; intervals := intervals w; nextInterval := nextInterval w;
     inflight := inflight w; nextRequest := nextRequest w;
     alerts := msg :: alerts w |}.

(** [await fetch(...)]: the request goes out and the caller is suspended. *)
Definition fetch (r : Request) (w : World) : World :=
  {| app := app w; mounted := mounted w; intervals := intervals w; nextInterval := nextInterval w;
     inflight := <[nextRequest w := r]> (inflight w);
     nextRequest := S (nextRequest w); alerts := alerts w |}.

(** The awaited promise settles: the request is no longer in flight. *)
Definition settle (request : nat) (w : World) : World :=
  {| app := app w; mounted := mounted w; intervals := intervals w; nextInterval := nextInterval w;
     inflight := delete request (inflight w);
     nextRequest := nextRequest w; alerts := alerts w |}.

Definition clearInterval (interval : nat) (w : World) : World :=
  {| app := app w; mounted := mounted w; intervals := delete interval (intervals w);
     nextInterval := nextInterval w; inflight := inflight w;
     nextRequest := nextRequest w; alerts := alerts w |}.

Notation "w |> f" := (f w) (at level 45, left associativity, only parsing).

(** [pollJobStatus] (lines 393-425): [setInterval(callback, 1000)]. *)
Definition pollJobStatus (id : string) (w : World) : World :=
  {| app := app w; mounted := mounted w; intervals := <[nextInterval w := id]> (intervals w);
     nextInterval := S (nextInterval w); inflight := inflight w;
     nextRequest := nextRequest w; alerts := alerts w |}.

(** [handleFileSelect] up to its [await fetch] (lines 366-377). *)
Definition handleFileSelect (file : File) (w : World) : World :=
  w |> setCurrentStep Processing
    |> setProgress 10
    |> setMessage "Uploading your proof..."
    |> fetch (PostGrade file).

(** The [catch] of [handleFileSelect] (lines 386-390). *)
Definition uploadFailed (w : World) : World :=
  w |> alert "Failed to upload file. Please try again."
    |> setCurrentStep Upload.

(** [handleFileSelect] after the await (lines 379-385). *)
Definition uploadSettled (r : Response) (w : World) : option World :=
  match r with
  | JobCreated newJobId =>
      Some (w |> setJobId (Some newJobId) |> pollJobStatus newJobId)
  | Failure => Some (uploadFailed w)
  | _ => None
  end.

(** The timer callback up to its [await fetch] (lines 394-396). *)
Definition tick (interval : nat) (w : World) : option World :=
  match intervals w !! interval with
  | Some id => Some (w |> fetch (GetStatus interval id))
  | None => None
  end.

(** The [catch] of the timer callback (lines 418-423). *)
Definition statusCheckFailed (interval : nat) (w : World) : World :=
  w |> clearInterval interval
    |> alert "Failed to check status. Please try again."
    |> setCurrentStep Upload.

(** The [status === 'failed'] branch (lines 413-417). *)
Definition processingFailed (interval : nat) (w : World) : World :=
  w |> clearInterval interval
    |> alert "Processing failed. Please try again."
    |> setCurrentStep Upload.

(** The timer callback after the status await (lines 397-417). *)
Definition statusSettled (interval : nat) (id : string) (r : Response) (w : World)
  : option World :=
  match r with
  | JobStatus status newProgress newMessage =>
      let w := w |> setProgress newProgress |> setMessage newMessage in
      if String.eqb status "done" then
        Some (w |> clearInterval interval |> fetch (GetResults interval id))
      else if String.eqb status "failed" then
        Some (processingFailed interval w)
      else Some w
  | Failure => Some (statusCheckFailed interval w)
  | _ => None
  end.

(** The timer callback after the results await (lines 408-412). *)
Definition resultsSettled (interval : nat) (r : Response) (w : World)
  : option World :=
  match r with
  | JobResults resultsData =>
      Some (w |> setResults (Some resultsData) |> setCurrentStep Results)
  | Failure => Some (statusCheckFailed interval w)
  | _ => None
  end.

(** [handleReset] (lines 427-433). *)
Definition handleReset (w : World) : World :=
  w |> setCurrentStep Upload
    |> setJobId None
    |> setProgress 0
    |> setMessage ""
    |> setResults None.

(** What the event loop can deliver. *)
Inductive Event :=
| FileSelect (file : File)     (* the mounted UploadZone calls onFileSelect *)
| Reset                        (* click on "Grade Another" of the mounted ResultsView *)
| Tick (interval : nat)        (* a live timer fires *)
| Settle (request : nat) (r : Response)
| Present.                     (* AnimatePresence mounts the current child *)

(** One turn of the event loop; [None] when the event cannot occur: the
    zone calls [onFileSelect] (line 458) and the results view [onReset]
    (line 483) only while they are mounted, be it as the current screen
    or as the exiting one; a cleared timer does not fire, and only a
    request in flight settles. The handlers themselves test nothing. *)
Definition step (w : World) (e : Event) : option World :=
  match e with
  | FileSelect file =>
      match mounted w with
      | Some Upload => Some (handleFileSelect file w)
      | _ => None
      end
  | Reset =>
      match mounted w with
      | Some Results => Some (handleReset w)
      | _ => None
      end
  | Tick interval => tick interval w
  | Present => Some (present w)
  | Settle request r =>
      match inflight w !! request with
      | Some (PostGrade _) => uploadSettled r (settle request w)
      | Some (GetStatus interval id) => statusSettled interval id r (settle request w)
      | Some (GetResults interval _) => resultsSettled interval r (settle request w)
      | None => None
      end
  end.

Fixpoint run (w : World) (events : list Event) : option World :=
  match events with
  | [] => Some w
  | e :: events' =>
      match step w e with
      | Some w' => run w' events'
      | None => None
      end
  end.

Definition reachable (w : World) : Prop :=
  exists events, run start events = Some w.

End App.

(* ------------------------------------------------------------------ *)
(** ** The properties stated about the program *)

Import UploadZone ResultsView App.

Definition is_image (file : File) : bool := startsWith (type file) "image/".

(** Last character of a string, to tell two messages apart. *)
Fixpoint last_char (s : string) : option ascii :=
  match s with
  | EmptyString => None
  | String c EmptyString => Some c
  | String _ s' => last_char s'
  end.

Definition view (w : World) : Step := currentStep (app w).

(** The world after a sequence of events from the start ([start] itself
    when the sequence cannot occur). *)
Definition after_events (events : list Event) : World :=
  default start (run start events).

(** Sample inputs. *)
Definition proof_png : File := mkFile "proof.png" "image/png".
Definition notes_pdf : File := mkFile "notes.pdf" "application/pdf".
Definition grade_B_plus : GradingResult :=
  mkGradingResult "B+" [mkIssue 1 "missing base case"] "/static/annotated/x.jpg".




(** The four error classes of section 7, read off the event that reports
    the error and the request it settles. *)
Inductive ErrorClass :=
  SubmissionFailure | PollFailure | JobFailed | ResultsFetchFailure.

Definition error_class (w : World) (e : Event) : option ErrorClass :=
  match e with
  | Settle request r =>
      match inflight w !! request, r with
      | Some (PostGrade _), Failure => Some SubmissionFailure
      | Some (GetStatus _ _), Failure => Some PollFailure
      | Some (GetStatus _ _), JobStatus status _ _ =>
          if String.eqb status "done" then None
          else if String.eqb status "failed" then Some JobFailed else None
      | Some (GetResults _ _), Failure => Some ResultsFetchFailure
      | _, _ => None
      end
  | _ => None
  end.

(** The timer whose callback awaits the request an event settles. *)
Definition loop_of (w : World) (e : Event) : option nat :=
  match e with
  | Settle request _ =>
      match inflight w !! request with
      | Some (GetStatus interval _) | Some (GetResults interval _) => Some interval
      | _ => None
      end
  | _ => None
  end.

(** A status response that ends the polling: 'done', 'failed', or an error. *)
Definition terminal (r : Response) : bool :=
  match r with
  | Failure => true
  | JobStatus status _ _ => String.eqb status "done" || String.eqb status "failed"
  | _ => false
  end.


(** Section 7 as worded: an alert, back to 'upload', the Job discarded and
    nothing retried. *)
Definition handled_as_specified (w w' : World) : Prop :=
  (exists msg, alerts w' = msg :: alerts w) /\
  view w' = Upload /\
  jobId (app w') = None /\
  nextRequest w' = nextRequest w.

(** A failure transition that changes nothing but the view state. *)
Definition only_view_changes (w w' : World) : Prop :=
  progress (app w') = progress (app w) /\
  message (app w') = message (app w) /\
  jobId (app w') = jobId (app w) /\
  results (app w') = results (app w).

(** Sample traces: a job submitted, with the processing screen in the
    place of the zone; the same after the first tick, with the status
    request still in flight. *)
Definition submitted : list Event :=
  [FileSelect proof_png; Present; Settle 0 (JobCreated "42")].
Definition polled_once : list Event :=
  (submitted ++ [Tick 0])%list.


(** Timer numbers are handed out in order: a live timer, and the timer of
    a callback that awaits a request, are older than the next one; a
    callback that awaits the results has cleared its timer. *)
Definition timers_fresh (w : World) : Prop :=
  (forall interval id, intervals w !! interval = Some id -> interval < nextInterval w) /\
  (forall request interval id,
     inflight w !! request = Some (GetStatus interval id) -> interval < nextInterval w) /\
  (forall request interval id,
     inflight w !! request = Some (GetResults interval id) ->
     interval < nextInterval w /\ intervals w !! interval = None).

(** Section 4.3 as worded: leaving 'processing' leaves no polling loop
    running. *)
Definition leaving_processing_stops_polling : Prop :=
  forall w e w', reachable w -> step w e = Some w' ->
    view w = Processing -> view w' <> Processing -> intervals w' = ∅.

(** Two uploads whose first job has two status requests in flight when
    its first poll fails; the second poll fails after the second job has
    started polling. *)
Definition second_job_polling : list Event :=
  [FileSelect proof_png; Present; Settle 0 (JobCreated "41"); Tick 0; Tick 0;
   Settle 1 Failure; Present; FileSelect proof_png; Present;
   Settle 3 (JobCreated "42")].


(** [r] is a status request for the job [id]. *)
Definition polls (id : string) (r : Request) : bool :=
  match r with
  | GetStatus _ id' => String.eqb id id'
  | _ => false
  end.

(** No two status requests for one job are in flight. *)
Definition one_poll_at_a_time (w : World) : Prop :=
  forall id request1 request2 interval1 interval2,
    inflight w !! request1 = Some (GetStatus interval1 id) ->
    inflight w !! request2 = Some (GetStatus interval2 id) ->
    request1 = request2.

(** No status request for the job [id] is in flight. *)
Definition idle (id : string) (w : World) : bool :=
  forallb (fun kr => negb (polls id kr.2)) (map_to_list (inflight w)).

(** The status requests for the job [id] that the events settle, in the
    order their responses are processed. Requests are numbered in the
    order they are sent. *)
Fixpoint poll_order (id : string) (w : World) (events : list Event) : list nat :=
  match events with
  | [] => []
  | e :: events' =>
      match step w e with
      | Some w' =>
          match e with
          | Settle request _ =>
              match inflight w !! request with
              | Some r =>
                  if polls id r then request :: poll_order id w' events'
                  else poll_order id w' events'
              | None => poll_order id w' events'
              end
          | _ => poll_order id w' events'
          end
      | None => []
      end
  end.

(** Every tick finds the earlier status requests for its job settled:
    the responses are faster than the timer. *)
Fixpoint paced (w : World) (events : list Event) : bool :=
  match events with
  | [] => true
  | e :: events' =>
      match e with
      | Tick interval =>
          match intervals w !! interval with
          | Some id => idle id w
          | None => true
          end
      | _ => true
      end
      && match step w e with
         | Some w' => paced w' events'
         | None => true
         end
  end.

(** Section 5 as worded: responses are processed in request order, one
    status request at a time. *)
Definition polls_in_request_order : Prop :=
  forall events w, run start events = Some w ->
    one_poll_at_a_time w /\
    forall id, StronglySorted lt (poll_order id start events).

Definition requests_fresh (w : World) : Prop :=
  forall request r, inflight w !! request = Some r -> request < nextRequest w.

(** Two ticks before the first response, answered in the other order;
    and the same job with each response ahead of the next tick. *)
Definition overlapping_polls : list Event :=
  (polled_once ++ [Tick 0;
                   Settle 2 (JobStatus "processing" 70 "Grading");
                   Settle 1 (JobStatus "processing" 30 "Reading")])%list.
Definition paced_polls : list Event :=
  (polled_once ++ [Settle 1 (JobStatus "processing" 30 "Reading"); Tick 0;
                   Settle 2 (JobStatus "processing" 70 "Grading"); Tick 0])%list.


(** The view-state graph: in some reachable world an event of the kind
    [P] takes the view from [v] to a different view [v']. *)
Definition edge (P : Event -> Prop) (v v' : Step) : Prop :=
  exists w e w',
    reachable w /\ P e /\ step w e = Some w' /\
    view w = v /\ view w' = v' /\ v <> v'.

Definition file_selection (e : Event) : Prop := exists file, e = FileSelect file.
Definition any_event (e : Event) : Prop := True.

(** In step 'processing' something is still to come: the submission is
    in flight, a timer is live, or a results request is in flight. *)
Definition processing_is_busy (w : World) : Prop :=
  view w = Processing ->
  (exists request file, inflight w !! request = Some (PostGrade file)) \/
  (exists interval id, intervals w !! interval = Some id) \/
  (exists request interval id, inflight w !! request = Some (GetResults interval id)).

(** A job that reached 'done', with its results request in flight. *)
Definition job_done : list Event :=
  (polled_once ++ [Settle 1 (JobStatus "done" 100 "Done")])%list.

(** The graph of section 4.2: upload to processing, processing to
    results or upload, results to upload. *)
Definition spec_graph (v v' : Step) : Prop :=
  (v = Upload /\ v' = Processing) \/
  (v = Processing /\ (v' = Results \/ v' = Upload)) \/
  (v = Results /\ v' = Upload).

Definition graph_as_specified : Prop :=
  forall v v', edge any_event v v' <-> spec_graph v v'.

(** Nothing is left over from before: the mounted screen is the one of
    the current step, and outside step 'processing' no timer is live and
    no request is in flight. *)
Definition calm (w : World) : Prop :=
  mounted w = Some (view w) /\
  (view w <> Processing -> intervals w = ∅ /\ inflight w = ∅).

(** The same job with its results on screen. *)
Definition results_on_screen : list Event :=
  (job_done ++ [Settle 2 (JobResults grade_B_plus); Present])%list.

(** ** The rest of the components *)

(** *** UploadZone: the [isDragging] cell and the style it drives
    (lines 79-89 and 119-123) *)

(** The DOM events the zone and its input handle. *)
Inductive ZoneEvent :=
| DragOver
| DragLeave
| Drop (files : list File)
| Change (files : list File).

Definition zone_handler (e : ZoneEvent) : Effect :=
  match e with
  | DragOver => handleDragOver
  | DragLeave => handleDragLeave
  | Drop files => handleDrop files
  | Change files => handleFileInput files
  end.

(** The value of [isDragging] after the handlers of the events have run,
    and the files they passed to [onFileSelect], in order. *)
Definition isDragging_after (isDragging : bool) (events : list ZoneEvent) : bool :=
  fold_left (fun dragging e => default dragging (setIsDragging (zone_handler e)))
    events isDragging.

Definition files_selected (events : list ZoneEvent) : list File :=
  flat_map (fun e => onFileSelect (zone_handler e)) events.

Record ZoneStyle := mkZoneStyle {
  borderColor : string;
  backgroundColor : string;
  transform : string
}.

Definition zoneStyle (isDragging : bool) : ZoneStyle :=
  {| borderColor := if isDragging then "#2E6FA8" else "#4A9FD8";
     backgroundColor := if isDragging then "#D5EDFA" else "#FFFFFF";
     transform := if isDragging then "scale(1.05)" else "scale(1)" |}.

(** The files a gesture carries. *)
Definition gesture_files (g : Gesture) : list File :=
  match g with
  | DropOnZone files | ClickZone files | ClickButton files | ChangeInput files => files
  end.

Definition is_drop (g : Gesture) : bool :=
  match g with DropOnZone _ => true | _ => false end.

(** *** App: the screens (lines 440-488) *)

Inductive Screen :=
| UploadScreen (isProcessing : bool)                 (* <UploadZone ... /> *)
| ProcessingScreen (progress : Z) (message : string) (* <ProcessingStatus ... /> *)
| ResultsScreen (display : Display).                 (* <ResultsView ... /> *)

(** The children the JSX hands to [AnimatePresence]: three conditional
    blocks. What is mounted follows them with a lag, see [mounted]. *)
Definition App_children (s : State) : list Screen :=
  (match currentStep s with
   | Upload => [UploadScreen false]
   | _ => []
   end ++
   match currentStep s with
   | Processing => [ProcessingScreen (progress s) (message s)]
   | _ => []
   end ++
   match currentStep s, results s with
   | Results, Some r => [ResultsScreen (ResultsView r (pdfAnnotatedUrl r))]
   | _, _ => []
   end)%list.

(** A gesture of the user on the zone, if it is mounted, as the current
    screen or as the exiting one: the zone was rendered with
    [isProcessing={false}] and passes its files to [handleFileSelect]
    (line 458), whatever the step is by then. Without a mounted zone
    nothing happens. *)
Definition user_gesture (g : Gesture) (w : World) : World :=
  match mounted w with
  | Some Upload =>
      fold_left (fun w file => handleFileSelect file w)
        (selected (dispatch false g)) w
  | _ => w
  end.

(** *** App: runs of one grading session *)

(** Step 'upload' with nothing pending. *)
Definition quiescent (w : World) : Prop :=
  view w = Upload /\ intervals w = ∅ /\ inflight w = ∅.

(** A status body [(status, progress, message)] that keeps the loop
    polling: the status is neither 'done' nor 'failed'. *)
Definition keeps_polling (body : string * Z * string) : bool :=
  negb (terminal (JobStatus body.1.1 body.1.2 body.2)).

(** Ticks of one timer, each answered before the next: the requests are
    numbered from [request] on. *)
Fixpoint poll_rounds (interval request : nat) (bodies : list (string * Z * string))
  : list Event :=
  match bodies with
  | [] => []
  | body :: bodies' =>
      Tick interval
        :: Settle request (JobStatus body.1.1 body.1.2 body.2)
        :: poll_rounds interval (S request) bodies'
  end.

(** With the zone on screen in the world [w] a file is selected, the
    processing screen takes the place of the zone, and the backend
    answers with the job [id] and with the status bodies in turn. *)
Definition polling_session (w : World) (file : File) (id : string)
    (bodies : list (string * Z * string)) : list Event :=
  (Present :: FileSelect file :: Present
     :: Settle (nextRequest w) (JobCreated id)
     :: poll_rounds (nextInterval w) (S (nextRequest w)) bodies)%list.

(** The session that ends with 'done' and the results [data], which
    are then put on screen. *)
Definition grading_session (w : World) (file : File) (id : string)
    (bodies : list (string * Z * string)) (done : Z * string)
    (data : GradingResult) : list Event :=
  (polling_session w file id bodies ++
   [Tick (nextInterval w);
    Settle (S (nextRequest w) + length bodies) (JobStatus "done" done.1 done.2);
    Settle (S (S (nextRequest w)) + length bodies) (JobResults data);
    Present])%list.

(** The session that ends with the response [r] to one more poll. *)
Definition failing_session (w : World) (file : File) (id : string)
    (bodies : list (string * Z * string)) (r : Response) : list Event :=
  (polling_session w file id bodies ++
   [Tick (nextInterval w); Settle (S (nextRequest w) + length bodies) r])%list.

(** Events that report an error: a failed request, or the status
    'failed'. *)
Definition reports_error (e : Event) : bool :=
  match e with
  | Settle _ Failure => true
  | Settle _ (JobStatus status _ _) =>
      negb (String.eqb status "done") && String.eqb status "failed"
  | _ => false
  end.

(** The job ids and the results the backend has sent in the events. *)
Definition ids_sent (events : list Event) : list string :=
  flat_map (fun e => match e with
                     | Settle _ (JobCreated id) => [id]
                     | _ => []
                     end) events.

Definition results_sent (events : list Event) : list GradingResult :=
  flat_map (fun e => match e with
                     | Settle _ (JobResults data) => [data]
                     | _ => []
                     end) events.

(** The job ids a world holds: in [jobId], in a live timer, in a request
    in flight. *)
Definition holds_id (w : World) (id : string) : Prop :=
  jobId (app w) = Some id \/
  (exists interval, intervals w !! interval = Some id) \/
  (exists request interval,
     inflight w !! request = Some (GetStatus interval id) \/
     inflight w !! request = Some (GetResults interval id)).

(** The timer [interval] is live for the job [id], or a request of its
    callback for that job is in flight. *)
Definition loop_polls (w : World) (interval : nat) (id : string) : Prop :=
  intervals w !! interval = Some id \/
  (exists request,
     inflight w !! request = Some (GetStatus interval id) \/
     inflight w !! request = Some (GetResults interval id)).

(** ** Proof automation *)

(** Splits [step w e = Some w'] into the code paths of the handlers. *)
Ltac step_inv H :=
  unfold step, tick, uploadSettled, statusSettled, resultsSettled in H;
  repeat (case_match; try discriminate H);
  simplify_eq; cbn in *.

(** Rewrites lookups in updated maps, in hypotheses and in the goal. *)
Ltac map_cases :=
  repeat match goal with
  | H : <[_ := _]> _ !! _ = Some _ |- _ =>
      apply lookup_insert_Some in H as [[? ?]|[? H]]; simplify_eq
  | H : delete _ _ !! _ = Some _ |- _ =>
      apply lookup_delete_Some in H as [? H]
  | |- delete _ _ !! _ = None => apply lookup_delete_None
  | |- <[_ := _]> _ !! _ = None => apply lookup_insert_None
  end.

(* ------------------------------------------------------------------ *)
(** ** UploadZone: facts *)

Lemma startsWith_cons (c p : ascii) (s : string) :
  startsWith (String c s) (String p EmptyString) = bool_decide (c = p).
Proof.
  unfold startsWith. cbn.
  destruct (ascii_dec p c) as [->|Hne]; case_bool_decide; try congruence.
  now destruct s.
Qed.

Lemma handleDrop_ignores_non_image (files : list File) :
  (forall file, first_file files = Some file -> is_image file = false) ->
  onFileSelect (handleDrop files) = [].
Proof.
  intros Hno. unfold handleDrop; cbn.
  destruct (first_file files) as [file|] eqn:Hfirst; [|reflexivity].
  specialize (Hno file eq_refl). unfold is_image in Hno. now rewrite Hno.
Qed.

(** C1, at the failing input: a PDF picked in the file dialog is not an
    image, the drop handler ignores it, and the input's change handler
    passes it to [onFileSelect], also through the click on the zone. *)
Theorem file_picker_passes_non_image :
  is_image notes_pdf = false /\
  onFileSelect (handleDrop [notes_pdf]) = [] /\
  onFileSelect (handleFileInput [notes_pdf]) = [notes_pdf] /\
  selected (dispatch false (ClickZone [notes_pdf])) = [notes_pdf] /\
  selected (dispatch false (ClickButton [notes_pdf])) = [notes_pdf].
Proof. repeat split; reflexivity. Qed.

(** C4: while [isProcessing] is true no gesture on the zone runs any
    handler, so none calls [onFileSelect]; when it is false every gesture
    reaches its handler, and the drop handler has no check of its own. *)
Theorem processing_disables_upload_zone :
  (forall g, dispatch true g = nothing) /\
  (forall g, ran (dispatch false g) <> []) /\
  (forall file rest, is_image file = true ->
     onFileSelect (handleDrop (file :: rest)) = [file]).
Proof.
  split; [|split].
  - intros [files|picked|picked|picked]; reflexivity.
  - intros [files|picked|picked|picked]; cbn; discriminate.
  - intros file rest Himg. unfold handleDrop; cbn.
    unfold is_image in Himg. now rewrite Himg.
Qed.

(* ------------------------------------------------------------------ *)
(** ** ResultsView: facts *)

Lemma tier_colors_distinct (t1 t2 : Tier) :
  tierColor t1 = tierColor t2 -> t1 = t2.
Proof. destruct t1, t2; cbn; intros H; try reflexivity; discriminate H. Qed.

(** C8: [getGradeColor] buckets a grade by its leading letter: A to the
    best tier, B to the second, C to the third, anything else (the empty
    string too) to the worst; the four tiers have four different colors. *)
Theorem getGradeColor_buckets_by_leading_letter :
  (forall grade, getGradeColor grade = tierColor (spec_bucket grade)) /\
  (forall rest, getGradeColor (String "A" rest) = green) /\
  (forall rest, getGradeColor (String "B" rest) = blue) /\
  (forall rest, getGradeColor (String "C" rest) = amber) /\
  (forall c rest, c <> "A"%char -> c <> "B"%char -> c <> "C"%char ->
     getGradeColor (String c rest) = red) /\
  getGradeColor "A-" = getGradeColor "A+" /\
  getGradeColor "B" = getGradeColor "B-" /\
  (forall t1 t2, tierColor t1 = tierColor t2 -> t1 = t2).
Proof.
  assert (Hcons : forall c rest, getGradeColor (String c rest) =
            if bool_decide (c = "A"%char) then green
            else if bool_decide (c = "B"%char) then blue
            else if bool_decide (c = "C"%char) then amber else red).
  { intros c rest. unfold getGradeColor. now rewrite !startsWith_cons. }
  assert (Hother : forall c rest, c <> "A"%char -> c <> "B"%char -> c <> "C"%char ->
            getGradeColor (String c rest) = red).
  { intros c rest HA HB HC. rewrite Hcons. now rewrite !bool_decide_eq_false_2. }
  split; [|split; [|split; [|split; [|split; [|split; [|split]]]]]];
    try (intros rest; now rewrite Hcons); try reflexivity; try assumption.
  - intros [|c rest]; [reflexivity|].
    destruct (ascii_dec c "A") as [->|HA]; [now rewrite Hcons|].
    destruct (ascii_dec c "B") as [->|HB]; [now rewrite Hcons|].
    destruct (ascii_dec c "C") as [->|HC]; [now rewrite Hcons|].
    rewrite Hother by assumption.
    destruct c as [[] [] [] [] [] [] [] []]; try reflexivity; congruence.
  - apply tier_colors_distinct.
Qed.

Lemma map_index_length {A B} (f : A -> nat -> B) (l : list A) (k : nat) :
  length (map_index f k l) = length l.
Proof. revert k; induction l as [|x l IH]; intros k; cbn; [|rewrite IH]; reflexivity. Qed.

Lemma map_index_lookup {A B} (f : A -> nat -> B) (l : list A) (k i : nat) (x : A) :
  l !! i = Some x -> map_index f k l !! i = Some (f x (k + i)).
Proof.
  revert k i; induction l as [|y l IH]; intros k [|i] Hx; try discriminate.
  - cbn in *. injection Hx as ->. now rewrite Nat.add_0_r.
  - specialize (IH (S k) i Hx). cbn in *.
    replace (k + S i) with (S (k + i)) by lia. exact IH.
Qed.

Lemma map_index_shows {A B C} (f : A -> nat -> B) (g : B -> C) (h : A -> C)
    (l : list A) (k : nat) :
  (forall x i, g (f x i) = h x) -> map g (map_index f k l) = map h l.
Proof.
  intros Hgf. revert k; induction l as [|x l IH]; intros k; cbn; [reflexivity|].
  now rewrite Hgf, IH.
Qed.

Lemma map_index_keys (l : list Issue) (k : nat) :
  map key (map_index (fun err index =>
                        {| key := index; badge := number err; text := error err |}) k l)
  = seq k (length l).
Proof. revert k; induction l as [|x l IH]; intros k; cbn; [|rewrite IH]; reflexivity. Qed.

Lemma last_char_app (s t : string) :
  t <> EmptyString -> last_char (s ++ t) = last_char t.
Proof.
  intros Ht. induction s as [|c s IH]; [reflexivity|].
  change (String c s ++ t) with (String c (s ++ t)).
  rewrite <- IH. destruct (s ++ t) eqn:Happ; [|reflexivity].
  destruct s as [|c' s'].
  - change (EmptyString ++ t) with t in Happ. congruence.
  - change (String c' s' ++ t) with (String c' (s' ++ t)) in Happ. discriminate.
Qed.

(** C9: the issues block lists the sections in the order received, row i
    showing the number and the error text of section i; with no sections
    the summary is the "no errors found" message, which no other count
    produces, and the issues block is not rendered. *)
Theorem ResultsView_lists_issues_in_order (results : GradingResult) (url : string) :
  (sections results = [] ->
     summary (ResultsView results url) = "Perfect! No errors found." /\
     issuesSection (ResultsView results url) = None) /\
  (sections results <> [] ->
     summary (ResultsView results url) <> "Perfect! No errors found." /\
     exists rows,
       issuesSection (ResultsView results url) = Some rows /\
       map (fun row => (badge row, text row)) rows
         = map (fun issue => (number issue, error issue)) (sections results) /\
       map key rows = seq 0 (length (sections results)) /\
       forall i issue, sections results !! i = Some issue ->
         rows !! i = Some {| key := i; badge := number issue; text := error issue |}).
Proof.
  unfold ResultsView; cbn. split.
  - intros ->. split; reflexivity.
  - intros Hne. destruct (sections results) as [|issue rest] eqn:Hs; [congruence|].
    cbn [length Nat.eqb Nat.ltb Nat.leb]. split.
    + intros Heq. apply (f_equal last_char) in Heq.
      rewrite last_char_app in Heq by (destruct rest; discriminate).
      destruct rest; discriminate Heq.
    + eexists. split; [reflexivity|]. split; [|split].
      * now apply map_index_shows.
      * apply map_index_keys.
      * intros i x Hx. now rewrite (map_index_lookup _ _ 0 i x Hx).
Qed.

(** The example of section 8: grade "B+" with one issue. *)
Lemma ResultsView_example :
  ResultsView grade_B_plus (pdfAnnotatedUrl grade_B_plus) =
  {| gradeBackground := blue; gradeText := "B+";
     summary := "1 issue identified";
     imageSrc := "http://localhost:5000/static/annotated/x.jpg";
     issuesSection := Some [{| key := 0; badge := 1; text := "missing base case" |}] |}.
Proof. reflexivity. Qed.

(* ------------------------------------------------------------------ *)
(** ** App: how one event changes the world *)

Lemma reachable_start : reachable start.
Proof. now exists []. Qed.

Lemma run_app (w : World) (events1 events2 : list Event) :
  run w (events1 ++ events2)%list =
  match run w events1 with Some w' => run w' events2 | None => None end.
Proof.
  revert w; induction events1 as [|e events1 IH]; intros w; cbn; [reflexivity|].
  destruct (step w e); [apply IH|reflexivity].
Qed.

Lemma reachable_step (w w' : World) (e : Event) :
  reachable w -> step w e = Some w' -> reachable w'.
Proof.
  intros [events Hrun] Hstep. exists (events ++ [e])%list.
  rewrite run_app, Hrun. cbn. now rewrite Hstep.
Qed.

Lemma reachable_ind (P : World -> Prop) :
  P start ->
  (forall w e w', reachable w -> P w -> step w e = Some w' -> P w') ->
  forall w, reachable w -> P w.
Proof.
  intros Hstart Hstep w [events Hrun].
  assert (Hgen : forall events w0 w1, reachable w0 -> P w0 ->
                   run w0 events = Some w1 -> P w1).
  { clear events Hrun. induction events as [|e events IH]; intros w0 w1 Hr HP Hrun.
    - cbn in Hrun. now simplify_eq.
    - cbn in Hrun. destruct (step w0 e) as [w0'|] eqn:He; [|discriminate].
      eapply (IH w0' w1); eauto using reachable_step. }
  eapply Hgen; eauto using reachable_start.
Qed.

Lemma results_view_has_results (w : World) :
  reachable w -> view w = Results -> is_Some (results (app w)).
Proof.
  revert w. apply (reachable_ind (fun w => view w = Results -> is_Some (results (app w)))).
  - discriminate.
  - intros w e w' _ IH Hstep. unfold view in *.
    step_inv Hstep; intros Hv; try discriminate Hv; eauto.
Qed.

(** The results view is not mounted in step 'processing': that step is
    entered from the mounted zone, and the results view is mounted only
    in step 'results'. *)
Lemma results_view_not_mounted_in_processing (w : World) :
  reachable w -> view w = Processing -> mounted w <> Some Results.
Proof.
  revert w.
  apply (reachable_ind (fun w => view w = Processing -> mounted w <> Some Results)).
  - discriminate.
  - intros w e w' _ IH Hstep. unfold view in *.
    step_inv Hstep; intros Hv; try discriminate Hv; try congruence; eauto.
    unfold child_key. rewrite Hv. discriminate.
Qed.

Lemma reachable_after (events : list Event) :
  is_Some (run start events) -> reachable (after_events events).
Proof.
  intros [w Hrun]. exists events. unfold after_events. now rewrite Hrun.
Qed.


(** The Job also outlives 'processing': it is still held in 'results' and
    after a failed poll, and a late failure of an overlapping poll leaves
    the GradingResult held in 'upload'. *)
Lemma job_held_outside_processing :
  (let w := after_events (polled_once ++ [Settle 1 (JobStatus "done" 100 "Done");
                                          Settle 2 (JobResults grade_B_plus)])%list in
   view w = Results /\ jobId (app w) = Some "42") /\
  (let w := after_events (polled_once ++ [Settle 1 Failure])%list in
   view w = Upload /\ jobId (app w) = Some "42") /\
  (let w := after_events (polled_once ++ [Tick 0; Settle 1 (JobStatus "done" 100 "Done");
                                          Settle 3 (JobResults grade_B_plus);
                                          Settle 2 Failure])%list in
   view w = Upload /\ results (app w) = Some grade_B_plus).
Proof. repeat split; reflexivity. Qed.



(* ------------------------------------------------------------------ *)
(** ** App: error handling *)

(** C6, refuted as stated: a failed poll raises the alert and returns to
    'upload', but the Job is still held afterwards. *)
Lemma failure_does_not_discard_job :
  ~ (forall w e w' c, reachable w -> error_class w e = Some c ->
       step w e = Some w' -> handled_as_specified w w').
Proof.
  intros Hall.
  destruct (Hall (after_events polled_once) (Settle 1 Failure)
              (after_events (polled_once ++ [Settle 1 Failure])%list) PollFailure)
    as (_ & _ & Hjob & _).
  - apply reachable_after. vm_compute. eauto.
  - reflexivity.
  - reflexivity.
  - vm_compute in Hjob. discriminate Hjob.
Qed.

(** C6, amended: each of the four error classes raises one alert and sets
    the view to 'upload' without a retry: the settled request leaves the
    requests in flight and none is added; the three poll-side classes
    cancel the timer of their loop and the submission failure leaves the
    timers alone. The stored [jobId] and [results] are kept. *)
Theorem errors_alert_and_return_to_upload (w w' : World) (e : Event) (c : ErrorClass) :
  error_class w e = Some c ->
  step w e = Some w' ->
  (exists msg, alerts w' = msg :: alerts w) /\
  view w' = Upload /\
  jobId (app w') = jobId (app w) /\
  results (app w') = results (app w) /\
  nextRequest w' = nextRequest w /\
  (exists request r, e = Settle request r /\
     inflight w' = delete request (inflight w)) /\
  intervals w' = match loop_of w e with
                 | Some interval => delete interval (intervals w)
                 | None => intervals w
                 end /\
  (c = SubmissionFailure <-> loop_of w e = None).
Proof.
  intros Hclass Hstep. unfold error_class, loop_of, view in *.
  destruct e as [file| |interval|request r|]; try discriminate Hclass.
  unfold step in Hstep.
  destruct (inflight w !! request) as [[file|interval id|interval id]|] eqn:Hreq;
    try discriminate Hclass;
    destruct r as [|newJobId|status newProgress newMessage|resultsData];
    try discriminate Hclass;
    cbn in Hstep.
  - simplify_eq. cbn. repeat split; eauto.
  - simplify_eq. cbn. repeat split; eauto; discriminate.
  - destruct (String.eqb status "done"); [discriminate Hclass|].
    destruct (String.eqb status "failed"); [|discriminate Hclass].
    simplify_eq. cbn. repeat split; eauto; discriminate.
  - simplify_eq. cbn. repeat split; eauto; discriminate.
Qed.

Lemma errors_alert_and_return_to_upload_witness :
  error_class (after_events polled_once) (Settle 1 Failure) = Some PollFailure /\
  step (after_events polled_once) (Settle 1 Failure)
    = Some (after_events (polled_once ++ [Settle 1 Failure])%list) /\
  alerts (after_events (polled_once ++ [Settle 1 Failure])%list)
    = ["Failed to check status. Please try again."] /\
  view (after_events (polled_once ++ [Settle 1 Failure])%list) = Upload.
Proof.
  pose proof (errors_alert_and_return_to_upload
                (after_events polled_once)
                (after_events (polled_once ++ [Settle 1 Failure])%list)
                (Settle 1 Failure) PollFailure eq_refl eq_refl)
    as (_ & Hview & _).
  split; [reflexivity|]. split; [reflexivity|]. split; [reflexivity|exact Hview].
Defined.

(** The four alerts, one per code path; poll failure and results-fetch
    failure share the [catch] of the timer callback. *)
Lemma alert_texts (w w' : World) (e : Event) (c : ErrorClass) :
  error_class w e = Some c ->
  step w e = Some w' ->
  alerts w' =
    match c with
    | SubmissionFailure => "Failed to upload file. Please try again."
    | JobFailed => "Processing failed. Please try again."
    | PollFailure | ResultsFetchFailure => "Failed to check status. Please try again."
    end :: alerts w.
Proof.
  intros Hclass Hstep. unfold error_class in Hclass.
  destruct e as [file| |interval|request r|]; try discriminate Hclass.
  unfold step in Hstep.
  destruct (inflight w !! request) as [[file|interval id|interval id]|] eqn:Hreq;
    try discriminate Hclass;
    destruct r as [|newJobId|status newProgress newMessage|resultsData];
    try discriminate Hclass;
    cbn in Hstep; simplify_eq; try reflexivity.
  destruct (String.eqb status "done"); [discriminate Hclass|].
  destruct (String.eqb status "failed"); [|discriminate Hclass].
  now simplify_eq.
Qed.

(* ------------------------------------------------------------------ *)
(** ** App: what a failure leaves in place *)

(** C10, refuted as stated: the callback that reads the status 'failed'
    has stored the progress and the message of that response before it
    returns to 'upload'. *)
Lemma failed_status_overwrites_progress :
  ~ (forall w e w' c, reachable w -> error_class w e = Some c ->
       step w e = Some w' -> only_view_changes w w').
Proof.
  intros Hall.
  destruct (Hall (after_events polled_once)
              (Settle 1 (JobStatus "failed" 55 "OCR error"))
              (after_events (polled_once ++ [Settle 1 (JobStatus "failed" 55 "OCR error")])%list)
              JobFailed)
    as (Hprogress & _).
  - apply reachable_after. vm_compute. eauto.
  - reflexivity.
  - reflexivity.
  - vm_compute in Hprogress. discriminate Hprogress.
Qed.

(** C10, amended: a failure keeps [jobId] and [results]; it keeps
    [progress] and [message] too unless it is the status 'failed', whose
    response has just overwritten both; the two failure branches set only
    the view state among the five state cells; the reset handler alone
    puts all five back to their initial values. *)
Theorem failures_keep_state_reset_restores :
  (forall w e w' c, error_class w e = Some c -> step w e = Some w' ->
     view w' = Upload /\
     jobId (app w') = jobId (app w) /\
     results (app w') = results (app w) /\
     match e with
     | Settle _ (JobStatus _ newProgress newMessage) =>
         c = JobFailed /\
         progress (app w') = newProgress /\ message (app w') = newMessage
     | _ => c <> JobFailed /\ only_view_changes w w'
     end) /\
  (forall w, app (uploadFailed w) = app (setCurrentStep Upload w)) /\
  (forall interval w,
     app (processingFailed interval w) = app (setCurrentStep Upload w) /\
     app (statusCheckFailed interval w) = app (setCurrentStep Upload w)) /\
  (forall w w', step w Reset = Some w' -> app w' = initial) /\
  (forall w e w', step w e = Some w' -> jobId (app w) <> None ->
     jobId (app w') = None -> e = Reset).
Proof.
  split; [|split; [|split; [|split]]].
  - intros w e w' c Hclass Hstep. unfold error_class, only_view_changes, view in *.
    destruct e as [file| |interval|request r|]; try discriminate Hclass.
    unfold step in Hstep.
    destruct (inflight w !! request) as [[file|interval id|interval id]|] eqn:Hreq;
      try discriminate Hclass;
      destruct r as [|newJobId|status newProgress newMessage|resultsData];
      try discriminate Hclass;
      cbn in Hstep.
    + simplify_eq. cbn. repeat split; eauto; discriminate.
    + simplify_eq. cbn. repeat split; eauto; discriminate.
    + destruct (String.eqb status "done"); [discriminate Hclass|].
      destruct (String.eqb status "failed"); [|discriminate Hclass].
      simplify_eq. cbn. repeat split; eauto.
    + simplify_eq. cbn. repeat split; eauto; discriminate.
  - reflexivity.
  - intros interval w. split; reflexivity.
  - intros w w' Hstep. step_inv Hstep. reflexivity.
  - intros w e w' Hstep Hjob Hnone. step_inv Hstep; congruence.
Qed.

Lemma failures_keep_state_reset_restores_witness :
  error_class (after_events polled_once) (Settle 1 (JobStatus "failed" 55 "OCR error"))
    = Some JobFailed /\
  jobId (app (after_events
                (polled_once ++ [Settle 1 (JobStatus "failed" 55 "OCR error")])%list))
    = jobId (app (after_events polled_once)) /\
  progress (app (after_events
                   (polled_once ++ [Settle 1 (JobStatus "failed" 55 "OCR error")])%list))
    = 55%Z.
Proof.
  destruct failures_keep_state_reset_restores as [Hfail _].
  destruct (Hfail (after_events polled_once)
              (Settle 1 (JobStatus "failed" 55 "OCR error"))
              (after_events (polled_once ++ [Settle 1 (JobStatus "failed" 55 "OCR error")])%list)
              JobFailed eq_refl eq_refl)
    as (_ & Hjob & _ & _ & Hprogress & _).
  split; [reflexivity|]. split; [exact Hjob | exact Hprogress].
Defined.

(* ------------------------------------------------------------------ *)
(** ** App: the polling loop *)

Lemma timers_fresh_step (w w' : World) (e : Event) :
  timers_fresh w -> step w e = Some w' -> timers_fresh w'.
Proof.
  intros (Hlive & Hstatus & Hresults) Hstep.
  step_inv Hstep; (split; [|split]); cbn;
    intros; map_cases;
    repeat match goal with
    | H : intervals w !! _ = Some _ |- _ => apply Hlive in H
    | H : inflight w !! _ = Some (GetStatus _ _) |- _ => apply Hstatus in H
    | H : inflight w !! _ = Some (GetResults _ _) |- _ =>
        apply Hresults in H as [? ?]
    end;
    try (split; [lia|]); map_cases; try lia; eauto.
  all: try (split; [lia|]); eauto; try (right; split; [lia|assumption]).
  split; [assumption|lia].
Qed.

Lemma timers_fresh_reachable (w : World) : reachable w -> timers_fresh w.
Proof.
  revert w. apply reachable_ind.
  - split; [|split]; intros * H; cbn in H; try rewrite lookup_empty in H;
      discriminate H.
  - intros w e w' _ IH Hstep. eapply timers_fresh_step; eauto.
Qed.

(** A cleared timer of the past stays cleared, and no event adds a status
    request of its loop. *)
Lemma cleared_timer_step (interval : nat) (w w' : World) (e : Event) :
  intervals w !! interval = None -> interval < nextInterval w ->
  step w e = Some w' ->
  intervals w' !! interval = None /\ interval < nextInterval w' /\
  (forall request id, inflight w' !! request = Some (GetStatus interval id) ->
     inflight w !! request = Some (GetStatus interval id)).
Proof.
  intros Hnone Hold Hstep.
  step_inv Hstep; (split; [|split]); cbn; try lia; try assumption;
    intros; map_cases; eauto; try congruence; try (right; split; [lia|assumption]).
  split; [assumption|lia].
Qed.

Lemma cleared_timer_run (interval : nat) (events : list Event) (w w' : World) :
  intervals w !! interval = None -> interval < nextInterval w ->
  run w events = Some w' ->
  intervals w' !! interval = None /\
  (forall request id, inflight w' !! request = Some (GetStatus interval id) ->
     inflight w !! request = Some (GetStatus interval id)).
Proof.
  revert w. induction events as [|e events IH]; intros w Hnone Hold Hrun; cbn in Hrun.
  - simplify_eq. eauto.
  - destruct (step w e) as [w1|] eqn:Hstep; [|discriminate].
    destruct (cleared_timer_step interval w w1 e Hnone Hold Hstep) as (Hn1 & Ho1 & Hsame).
    destruct (IH w1 Hn1 Ho1 Hrun) as [Hfinal Hreqs]. eauto.
Qed.

(** C7, refuted as stated: the late failure of the first job's second poll
    moves the view from 'processing' to 'upload' while the timer of the
    second job keeps firing. *)
Lemma stale_failure_leaves_loop_running :
  ~ leaving_processing_stops_polling.
Proof.
  intros Hall.
  assert (Hempty : intervals (after_events (second_job_polling ++ [Settle 2 Failure])%list)
                   = ∅).
  { apply (Hall (after_events second_job_polling) (Settle 2 Failure)).
    - apply reachable_after. vm_compute. eauto.
    - vm_compute. reflexivity.
    - vm_compute. reflexivity.
    - vm_compute. discriminate. }
  apply (f_equal (fun m => m !! 1)) in Hempty.
  vm_compute in Hempty. discriminate Hempty.
Qed.

(** In that world the view is 'upload' and the next tick of the second
    job's timer still sends a status request. *)
Lemma stale_failure_trace :
  let w := after_events (second_job_polling ++ [Settle 2 Failure])%list in
  view (after_events second_job_polling) = Processing /\
  view w = Upload /\
  intervals w !! 1 = Some "42" /\
  (w' ← step w (Tick 1); inflight w' !! 4) = Some (GetStatus 1 "42").
Proof. cbv zeta. split; [|split; [|split]]; vm_compute; reflexivity. Qed.

(** C7, amended: when a status request of a loop settles with 'done',
    'failed' or an error, the timer of that loop is cleared for good: it
    never fires again and no later status request belongs to that loop.
    Every transition away from 'processing' is made by a settled request;
    when the request belongs to a polling loop, the timer of that loop is
    cleared after it, and when it is the submission, no timer is touched. *)
Theorem polling_stops_with_its_loop (w : World) :
  reachable w ->
  (forall request interval id r w',
     inflight w !! request = Some (GetStatus interval id) ->
     terminal r = true ->
     step w (Settle request r) = Some w' ->
     forall events w'', run w' events = Some w'' ->
       intervals w'' !! interval = None /\
       step w'' (Tick interval) = None /\
       (forall request' id', inflight w'' !! request' = Some (GetStatus interval id') ->
          inflight w' !! request' = Some (GetStatus interval id'))) /\
  (forall e w', step w e = Some w' ->
     view w = Processing -> view w' <> Processing ->
     match loop_of w e with
     | Some interval => intervals w' !! interval = None
     | None => exists request file,
         e = Settle request Failure /\
         inflight w !! request = Some (PostGrade file) /\
         intervals w' = intervals w
     end).
Proof.
  intros Hreach. destruct (timers_fresh_reachable w Hreach) as (Hlive & Hstatus & Hresults).
  split.
  - intros request interval id r w' Hreq Hterm Hstep events w'' Hrun.
    pose proof (Hstatus _ _ _ Hreq) as Hold.
    assert (Hcleared : intervals w' !! interval = None /\ interval < nextInterval w').
    { unfold step in Hstep. rewrite Hreq in Hstep.
      destruct r as [|newJobId|status newProgress newMessage|resultsData];
        try discriminate Hterm; cbn in Hstep.
      - simplify_eq. cbn. split; [apply lookup_delete_eq|assumption].
      - cbn in Hterm. destruct (String.eqb status "done").
        + simplify_eq. cbn. split; [apply lookup_delete_eq|assumption].
        + destruct (String.eqb status "failed"); [|discriminate Hterm].
          simplify_eq. cbn. split; [apply lookup_delete_eq|assumption]. }
    destruct Hcleared as [Hnone Hold'].
    destruct (cleared_timer_run interval events w' w'' Hnone Hold' Hrun) as [Hfinal Hsame].
    split; [assumption|]. split; [|assumption].
    cbn. unfold tick. now rewrite Hfinal.
  - intros e w' Hstep Hview Hleft.
    pose proof (results_view_not_mounted_in_processing w Hreach Hview) as Hmounted.
    unfold view, loop_of in *.
    step_inv Hstep; try congruence; eauto;
      try apply lookup_delete_eq.
    eapply Hresults; eassumption.
Qed.

Lemma polling_stops_with_its_loop_witness :
  reachable (after_events polled_once) /\
  intervals (after_events (polled_once ++ [Settle 1 Failure; Present; FileSelect proof_png])%list)
    !! 0 = None /\
  step (after_events (polled_once ++ [Settle 1 Failure; Present; FileSelect proof_png])%list)
    (Tick 0) = None.
Proof.
  assert (Hreach : reachable (after_events polled_once)).
  { exists polled_once. vm_compute. reflexivity. }
  split; [exact Hreach|].
  destruct (polling_stops_with_its_loop _ Hreach) as [Hstop _].
  destruct (Hstop 1 0 "42" Failure
              (after_events (polled_once ++ [Settle 1 Failure])%list)
              ltac:(vm_compute; reflexivity) ltac:(reflexivity)
              ltac:(vm_compute; reflexivity)
              [Present; FileSelect proof_png]
              (after_events (polled_once ++ [Settle 1 Failure; Present; FileSelect proof_png])%list)
              ltac:(vm_compute; reflexivity))
    as (Hnone & Htick & _).
  split; assumption.
Defined.

(* ------------------------------------------------------------------ *)
(** ** App: order of the poll responses *)

Lemma polls_true (id : string) (r : Request) :
  polls id r = true <-> exists interval, r = GetStatus interval id.
Proof.
  destruct r as [file|interval id'|interval id']; cbn.
  - split; [discriminate|intros [? ?]; discriminate].
  - rewrite String.eqb_eq. split; [intros ->; eauto|intros [? ?]; congruence].
  - split; [discriminate|intros [? ?]; discriminate].
Qed.

Lemma idle_no_poll (id : string) (w : World) (request interval : nat) :
  idle id w = true -> inflight w !! request <> Some (GetStatus interval id).
Proof.
  unfold idle. rewrite forallb_forall. intros Hidle Hreq.
  apply elem_of_map_to_list in Hreq. apply list_elem_of_In in Hreq.
  apply Hidle in Hreq. cbn in Hreq. now rewrite String.eqb_refl in Hreq.
Qed.

Lemma step_requests (w w' : World) (e : Event) :
  step w e = Some w' ->
  nextRequest w <= nextRequest w' /\
  forall request r, inflight w' !! request = Some r ->
    inflight w !! request = Some r \/ nextRequest w <= request.
Proof.
  intros Hstep. step_inv Hstep; (split; [lia|]); intros; map_cases; eauto; lia.
Qed.

Lemma requests_fresh_step (w w' : World) (e : Event) :
  requests_fresh w -> step w e = Some w' -> requests_fresh w'.
Proof.
  intros Hfresh Hstep request r Hreq.
  destruct (step_requests w w' e Hstep) as [Hle Hfrom].
  destruct (Hfrom request r Hreq) as [Hold|Hnew].
  - apply Hfresh in Hold. lia.
  - step_inv Hstep; map_cases; try lia;
      match goal with H : inflight w !! _ = Some _ |- _ => apply Hfresh in H; lia end.
Qed.

Lemma settled_request_gone (w w' : World) (request : nat) (r : Response) :
  requests_fresh w -> step w (Settle request r) = Some w' ->
  inflight w' !! request = None.
Proof.
  intros Hfresh Hstep.
  step_inv Hstep; map_cases; rewrite ?lookup_delete_eq; eauto.
  match goal with H : inflight w !! _ = Some _ |- _ => apply Hfresh in H end.
  split; [reflexivity|lia].
Qed.

(** A status request settled later is in flight now or not sent yet. *)
Lemma poll_order_bound (id : string) (events : list Event) (w : World) (x : nat) :
  x ∈ poll_order id w events ->
  (exists interval, inflight w !! x = Some (GetStatus interval id)) \/
  nextRequest w <= x.
Proof.
  revert w. induction events as [|e events IH]; intros w Hin; cbn in Hin.
  - now apply elem_of_nil in Hin.
  - destruct (step w e) as [w'|] eqn:Hstep; [|now apply elem_of_nil in Hin].
    destruct (step_requests w w' e Hstep) as [Hle Hfrom].
    assert (Hback : x ∈ poll_order id w' events ->
              (exists interval, inflight w !! x = Some (GetStatus interval id)) \/
              nextRequest w <= x).
    { intros Hin'. destruct (IH w' Hin') as [[interval Hreq]|Hlater]; [|right; lia].
      destruct (Hfrom _ _ Hreq); eauto. }
    destruct e as [file| |interval|request r|]; try (now apply Hback).
    destruct (inflight w !! request) as [q|] eqn:Hreq; [|now apply Hback].
    destruct (polls id q) eqn:Hpolls; [|now apply Hback].
    apply elem_of_cons in Hin as [->|Hin]; [|now apply Hback].
    apply polls_true in Hpolls as [interval ->]. eauto.
Qed.

Lemma one_poll_step (w w' : World) (e : Event) :
  one_poll_at_a_time w ->
  paced w [e] = true ->
  step w e = Some w' ->
  one_poll_at_a_time w'.
Proof.
  intros Hone Hpaced Hstep id request1 request2 interval1 interval2 H1 H2.
  cbn in Hpaced. apply andb_true_iff in Hpaced as [Hidle _].
  step_inv Hstep; map_cases; eauto;
    exfalso; eapply idle_no_poll; eauto.
Qed.

Lemma paced_polls_sorted (id : string) (events : list Event) (w : World) :
  requests_fresh w -> one_poll_at_a_time w -> paced w events = true ->
  StronglySorted lt (poll_order id w events) /\
  (forall w', run w events = Some w' -> one_poll_at_a_time w').
Proof.
  revert w. induction events as [|e events IH]; intros w Hfresh Hone Hpaced.
  - split; [constructor|]. intros w' Hrun. cbn in Hrun. now simplify_eq.
  - cbn in Hpaced. apply andb_true_iff in Hpaced as [Htick Hrest].
    cbn. destruct (step w e) as [w'|] eqn:Hstep; [|split; [constructor|discriminate]].
    assert (Hone' : one_poll_at_a_time w').
    { apply (one_poll_step w w' e Hone); [|assumption].
      cbn. now rewrite Htick, Hstep. }
    destruct (IH w' (requests_fresh_step _ _ _ Hfresh Hstep) Hone' Hrest)
      as [Hsorted Hfinal].
    split; [|assumption].
    destruct e as [file| |interval|request r|]; try assumption.
    destruct (inflight w !! request) as [q|] eqn:Hreq; [|assumption].
    destruct (polls id q) eqn:Hpolls; [|assumption].
    apply polls_true in Hpolls as [interval ->].
    constructor; [assumption|].
    apply Forall_forall. intros x Hx.
    destruct (step_requests w w' _ Hstep) as [Hle Hfrom].
    pose proof (Hfresh _ _ Hreq) as Hold.
    destruct (poll_order_bound id events w' x Hx) as [[interval' Hx']|Hlater]; [|lia].
    destruct (Hfrom _ _ Hx') as [Hxw|Hnew]; [|lia].
    assert (x = request) as -> by (eapply Hone; eauto).
    rewrite (settled_request_gone w w' request r Hfresh Hstep) in Hx'.
    discriminate Hx'.
Qed.

(** C3, refuted as stated: the timer fires again while the first status
    request is in flight, so two requests for job 42 are in flight, and
    when the second response arrives first the first one is processed
    after it. *)
Lemma overlapping_polls_out_of_order :
  ~ polls_in_request_order.
Proof.
  intros Hall.
  destruct (Hall overlapping_polls (after_events overlapping_polls)) as [_ Hsorted].
  { vm_compute. reflexivity. }
  specialize (Hsorted "42").
  assert (Horder : poll_order "42" start overlapping_polls = [2; 1])
    by (vm_compute; reflexivity).
  rewrite Horder in Hsorted.
  apply StronglySorted_inv in Hsorted as [_ Hlt].
  apply Forall_inv in Hlt. lia.
Qed.

(** In that run both requests are in flight after the second tick, and the
    progress shown at the end is the older one. *)
Lemma overlapping_polls_trace :
  inflight (after_events (polled_once ++ [Tick 0])%list) !! 1 = Some (GetStatus 0 "42") /\
  inflight (after_events (polled_once ++ [Tick 0])%list) !! 2 = Some (GetStatus 0 "42") /\
  progress (app (after_events overlapping_polls)) = 30%Z.
Proof. split; [|split]; vm_compute; reflexivity. Qed.

Lemma requests_fresh_reachable (w : World) : reachable w -> requests_fresh w.
Proof.
  revert w. apply reachable_ind.
  - intros request r Hreq. cbn in Hreq. rewrite lookup_empty in Hreq. discriminate.
  - intros w e w' _ IH Hstep. eapply requests_fresh_step; eauto.
Qed.

(** C3, amended: a live timer sends a new status request at every tick,
    whatever is still in flight, and shows nothing by itself; a status
    response is processed when it arrives, whatever else is in flight: the
    progress and the message shown are then the ones of that response.
    In a run where every tick finds the earlier status requests for its
    job settled, at most one status request per job is in flight and the
    responses for a job are processed in the order of their requests. *)
Theorem polls_at_every_tick_in_order_when_paced :
  (forall w interval id,
     reachable w -> intervals w !! interval = Some id ->
     exists w',
       step w (Tick interval) = Some w' /\
       inflight w !! nextRequest w = None /\
       inflight w' = <[nextRequest w := GetStatus interval id]> (inflight w) /\
       app w' = app w /\ intervals w' = intervals w) /\
  (forall w request interval id status newProgress newMessage,
     inflight w !! request = Some (GetStatus interval id) ->
     exists w',
       step w (Settle request (JobStatus status newProgress newMessage)) = Some w' /\
       progress (app w') = newProgress /\ message (app w') = newMessage) /\
  (forall events w,
     paced start events = true ->
     run start events = Some w ->
     one_poll_at_a_time w /\
     forall id, StronglySorted lt (poll_order id start events)).
Proof.
  split; [|split].
  - intros w interval id Hreach Hlive.
    exists (fetch (GetStatus interval id) w). cbn. unfold tick. rewrite Hlive.
    repeat split.
    destruct (inflight w !! nextRequest w) as [r|] eqn:Hreq; [|reflexivity].
    apply (requests_fresh_reachable w Hreach) in Hreq. lia.
  - intros w request interval id status newProgress newMessage Hreq.
    cbn. rewrite Hreq. cbn.
    destruct (String.eqb status "done"); [eexists; split; [reflexivity|split; reflexivity]|].
    destruct (String.eqb status "failed"); eexists; (split; [reflexivity|split; reflexivity]).
  - intros events w Hpaced Hrun.
    assert (Hfresh : requests_fresh start).
    { intros request r Hreq. cbn in Hreq. rewrite lookup_empty in Hreq. discriminate. }
    assert (Hone : one_poll_at_a_time start).
    { intros id r1 r2 i1 i2 H1. cbn in H1. rewrite lookup_empty in H1. discriminate. }
    split.
    + destruct (paced_polls_sorted "" events start Hfresh Hone Hpaced) as [_ Hfinal].
      now apply Hfinal.
    + intros id. now destruct (paced_polls_sorted id events start Hfresh Hone Hpaced).
Qed.

Lemma polls_at_every_tick_in_order_when_paced_witness :
  paced start paced_polls = true /\
  run start paced_polls = Some (after_events paced_polls) /\
  one_poll_at_a_time (after_events paced_polls) /\
  StronglySorted lt (poll_order "42" start paced_polls).
Proof.
  assert (Hpaced : paced start paced_polls = true) by (vm_compute; reflexivity).
  assert (Hrun : run start paced_polls = Some (after_events paced_polls))
    by (vm_compute; reflexivity).
  split; [exact Hpaced|]. split; [exact Hrun|].
  destruct polls_at_every_tick_in_order_when_paced as (_ & _ & Hordered).
  destruct (Hordered paced_polls _ Hpaced Hrun) as [Hone Hsorted].
  split; [exact Hone|exact (Hsorted "42")].
Defined.

Lemma paced_polls_order : poll_order "42" start paced_polls = [1; 2].
Proof. vm_compute. reflexivity. Qed.

(* ------------------------------------------------------------------ *)
(** ** App: the view-state machine *)

Lemma processing_is_busy_reachable (w : World) : reachable w -> processing_is_busy w.
Proof.
  revert w. apply reachable_ind.
  - discriminate.
  - intros w e w' Hreach IH Hstep Hview.
    pose proof (requests_fresh_reachable w Hreach) as Hfresh.
    unfold processing_is_busy, view in *.
    step_inv Hstep; try discriminate Hview.
    + left. eexists _, _. apply lookup_insert_eq.
    + destruct (IH Hview) as [(request & file & Hreq)|[Hlive|(request & i & id & Hreq)]];
        [left|right; left|right; right]; eauto.
      * exists request, file. rewrite lookup_insert_ne; [assumption|].
        apply Hfresh in Hreq. lia.
      * exists request, i, id. rewrite lookup_insert_ne; [assumption|].
        apply Hfresh in Hreq. lia.
    + right; left. eexists _, _. apply lookup_insert_eq.
    + right; right. eexists _, _, _. apply lookup_insert_eq.
    + destruct (IH Hview) as [(request' & file & Hreq)|[Hlive|(request' & i & id' & Hreq)]];
        [left|right; left|right; right]; eauto.
      * exists request', file. rewrite lookup_delete_ne; [assumption|congruence].
      * exists request', i, id'. rewrite lookup_delete_ne; [assumption|congruence].
    + exact (IH Hview).
Qed.

(** From every reachable world some events lead back to 'upload' with
    the zone mounted. *)
Lemma upload_reachable_again (w : World) :
  reachable w ->
  exists events w',
    run w events = Some w' /\ view w' = Upload /\ mounted w' = Some Upload.
Proof.
  intros Hreach.
  assert (Hshow : forall w0, view w0 = Upload ->
            view (present w0) = Upload /\ mounted (present w0) = Some Upload).
  { intros w0 Hv. unfold view in *. cbn. unfold child_key. now rewrite Hv. }
  destruct (view w) eqn:Hview.
  - exists [Present], (present w). split; [reflexivity|]. now apply Hshow.
  - destruct (processing_is_busy_reachable w Hreach Hview)
      as [(request & file & Hreq)|[(interval & id & Hlive)|(request & i & id & Hreq)]].
    + exists [Settle request Failure; Present]. eexists.
      cbn. rewrite Hreq. cbn. split; [reflexivity|]. now apply Hshow.
    + exists [Tick interval; Settle (nextRequest w) Failure; Present]. eexists.
      cbn. unfold tick. rewrite Hlive. cbn. rewrite lookup_insert_eq. cbn.
      split; [reflexivity|]. now apply Hshow.
    + exists [Settle request Failure; Present]. eexists.
      cbn. rewrite Hreq. cbn. split; [reflexivity|]. now apply Hshow.
  - destruct (results_view_has_results w Hreach Hview) as [data Hdata].
    exists [Present; Reset; Present]. eexists. unfold view in Hview.
    cbn. unfold child_key. rewrite Hview, Hdata. cbn.
    split; [reflexivity|]. now apply Hshow.
Qed.

(** When two status requests of a job overlap and the first reports
    'done' while the second fails, the failure shows 'upload' and the
    results response that follows shows 'results'. *)
Lemma late_results_after_failure :
  edge any_event Upload Results.
Proof.
  exists (after_events (polled_once ++ [Tick 0; Settle 1 (JobStatus "done" 100 "Done");
                                        Settle 2 Failure])%list),
    (Settle 3 (JobResults grade_B_plus)).
  eexists. split; [apply reachable_after; vm_compute; eauto|].
  split; [exact I|]. split; [vm_compute; reflexivity|].
  split; [vm_compute; reflexivity|]. split; [vm_compute; reflexivity|discriminate].
Qed.

(** The zone stays mounted while it animates out: a second file selected
    then, in step 'processing', is posted as well. *)
Lemma second_file_on_exiting_zone :
  let w := after_events [FileSelect proof_png; FileSelect notes_pdf] in
  view (after_events [FileSelect proof_png]) = Processing /\
  view w = Processing /\
  inflight w !! 0 = Some (PostGrade proof_png) /\
  inflight w !! 1 = Some (PostGrade notes_pdf).
Proof. cbv zeta. repeat split; vm_compute; reflexivity. Qed.

(** C5, refuted as stated: the view also goes from 'upload' straight to
    'results', an edge the graph of the claim does not have. *)
Lemma view_graph_has_another_edge :
  ~ graph_as_specified.
Proof.
  intros Hgraph.
  destruct (proj1 (Hgraph Upload Results) late_results_after_failure)
    as [[_ Hv]|[[Hv _]|[Hv _]]]; discriminate Hv.
Qed.

Lemma calm_worlds_reachable :
  (reachable start /\ calm start) /\
  (reachable (after_events job_done) /\
   calm (after_events job_done) /\
   view (after_events job_done) = Processing) /\
  (reachable (after_events results_on_screen) /\
   calm (after_events results_on_screen) /\
   view (after_events results_on_screen) = Results).
Proof.
  split; [|split].
  - split; [apply reachable_start|]. split; [reflexivity|]. intros _. split; reflexivity.
  - split; [apply reachable_after; vm_compute; eauto|].
    split; [|vm_compute; reflexivity].
    split; [vm_compute; reflexivity|]. intros Hv. exfalso. apply Hv.
    vm_compute. reflexivity.
  - split; [apply reachable_after; vm_compute; eauto|].
    split; [|vm_compute; reflexivity].
    split; [vm_compute; reflexivity|]. intros _.
    split; vm_compute; reflexivity.
Qed.

(** C5, amended: the machine starts in 'upload'. A file selection always
    leads to 'processing'. The view becomes 'processing' only by a file
    selection, 'results' only by a successful results response, and
    'upload' only by the reset or by one of the four errors. In a calm
    world (the mounted screen is that of the current step and, outside
    'processing', nothing is live or in flight) the view changes only
    along the graph upload to processing, processing to results or
    upload, results to upload, from 'upload' only by a file selection and
    from 'results' only by the reset; and each of these four edges occurs
    in a reachable calm world. Every reachable world can change its view
    again and can come back to 'upload' with the zone mounted, where a
    file can be selected anew. *)
Theorem view_state_transitions :
  view start = Upload /\
  (forall w file w', step w (FileSelect file) = Some w' -> view w' = Processing) /\
  (forall w e w', step w e = Some w' -> view w' <> view w ->
     match view w' with
     | Processing => file_selection e
     | Results => exists request data, e = Settle request (JobResults data)
     | Upload => e = Reset \/ exists c, error_class w e = Some c
     end) /\
  (forall w e w', calm w -> step w e = Some w' -> view w' <> view w ->
     spec_graph (view w) (view w') /\
     (view w = Upload -> file_selection e) /\
     (view w = Results -> e = Reset)) /\
  (forall v v', spec_graph v v' ->
     exists w e w', reachable w /\ calm w /\ step w e = Some w' /\
                    view w = v /\ view w' = v') /\
  (forall w, reachable w ->
     exists events w', run w events = Some w' /\ view w' <> view w) /\
  (forall w, reachable w ->
     exists events w', run w events = Some w' /\ view w' = Upload /\
       forall file, exists w'', step w' (FileSelect file) = Some w'' /\
                                view w'' = Processing).
Proof.
  destruct calm_worlds_reachable
    as ((Hr0 & Hc0) & (Hr1 & Hc1 & Hv1) & (Hr2 & Hc2 & Hv2)).
  split; [reflexivity|]. split; [|split; [|split; [|split; [|split]]]].
  - intros w file w' Hstep. unfold view. step_inv Hstep. reflexivity.
  - intros w e w' Hstep Hchange. unfold view, error_class, file_selection in *.
    step_inv Hstep; try congruence; eauto;
      repeat match goal with
      | H : inflight w !! _ = Some _ |- _ => rewrite H
      | H : String.eqb _ _ = _ |- _ => rewrite H
      end; eauto.
  - intros w e w' [Hmounted Hnothing] Hstep Hchange.
    unfold spec_graph, view, file_selection in *.
    destruct (currentStep (app w)) eqn:Hv.
    + destruct Hnothing as [Hi Hf]; [discriminate|].
      unfold step, tick in Hstep. rewrite Hmounted, Hi, Hf in Hstep.
      destruct e as [file| |interval|request r|];
        try (rewrite lookup_empty in Hstep); try discriminate Hstep;
        cbn in Hstep; simplify_eq; cbn in *; try congruence.
      split; [eauto|]. split; [eauto|discriminate].
    + split; [|split; discriminate].
      destruct (currentStep (app w')); try congruence; eauto.
    + destruct Hnothing as [Hi Hf]; [discriminate|].
      unfold step, tick in Hstep. rewrite Hmounted, Hi, Hf in Hstep.
      destruct e as [file| |interval|request r|];
        try (rewrite lookup_empty in Hstep); try discriminate Hstep;
        cbn in Hstep; simplify_eq; cbn in *; try congruence.
      split; [eauto 6|]. split; [discriminate|reflexivity].
  - intros v v' [[-> ->]|[[-> [-> | ->]]|[-> ->]]].
    + exists start, (FileSelect proof_png). eexists.
      split; [exact Hr0|]. split; [exact Hc0|]. split; [reflexivity|].
      split; reflexivity.
    + exists (after_events job_done), (Settle 2 (JobResults grade_B_plus)).
      eexists. split; [exact Hr1|]. split; [exact Hc1|].
      split; [vm_compute; reflexivity|]. split; [exact Hv1|reflexivity].
    + exists (after_events job_done), (Settle 2 Failure).
      eexists. split; [exact Hr1|]. split; [exact Hc1|].
      split; [vm_compute; reflexivity|]. split; [exact Hv1|reflexivity].
    + exists (after_events results_on_screen), Reset.
      eexists. split; [exact Hr2|]. split; [exact Hc2|].
      split; [vm_compute; reflexivity|]. split; [exact Hv2|reflexivity].
  - intros w Hreach.
    destruct (upload_reachable_again w Hreach) as (events & w' & Hrun & Hup & Hzone).
    destruct (view w) eqn:Hview.
    + exists (events ++ [FileSelect proof_png])%list. eexists.
      rewrite run_app, Hrun. cbn. rewrite Hzone. split; [reflexivity|]. discriminate.
    + exists events, w'. split; [assumption|]. congruence.
    + exists events, w'. split; [assumption|]. congruence.
  - intros w Hreach.
    destruct (upload_reachable_again w Hreach) as (events & w' & Hrun & Hup & Hzone).
    exists events, w'. split; [assumption|]. split; [assumption|].
    intros file. eexists. cbn. rewrite Hzone. split; reflexivity.
Qed.

(* ------------------------------------------------------------------ *)
(** ** UploadZone: more facts *)

Lemma string_app_nil_l (s : string) : EmptyString ++ s = s.
Proof. reflexivity. Qed.

Lemma string_app_cons (c : ascii) (s t : string) :
  String c s ++ t = String c (s ++ t).
Proof. reflexivity. Qed.

Lemma startsWith_spec (s p : string) :
  startsWith s p = true <-> exists rest, s = p ++ rest.
Proof.
  unfold startsWith. revert s. induction p as [|a p IH]; intros s.
  - split; [intros _; exists s; reflexivity|intros _; now destruct s].
  - destruct s as [|b s]; cbn.
    + split; [discriminate|]. intros [rest Hrest].
      rewrite string_app_cons in Hrest. discriminate Hrest.
    + destruct (ascii_dec a b) as [->|Hne].
      * rewrite IH. split; intros [rest Hrest]; exists rest.
        -- now rewrite string_app_cons, Hrest.
        -- rewrite string_app_cons in Hrest. now injection Hrest.
      * split; [discriminate|]. intros [rest Hrest].
        rewrite string_app_cons in Hrest. injection Hrest as Hc _. congruence.
Qed.

(** X1: a drop passes a file to [onFileSelect] exactly when the file is
    the first of the dropped list and its MIME type is "image/" followed
    by anything; the other files of the list are never looked at. *)
Theorem drop_selects_first_image (files : list File) (file : File) :
  onFileSelect (handleDrop files) = [file] <->
  first_file files = Some file /\ exists subtype, type file = "image/" ++ subtype.
Proof.
  unfold handleDrop; cbn. rewrite <- startsWith_spec.
  destruct (first_file files) as [first|]; [|split; [discriminate|intros [? _]; discriminate]].
  destruct (startsWith (type first) "image/") eqn:Himg; split.
  - intros [= ->]. eauto.
  - intros [[= ->] _]. reflexivity.
  - discriminate.
  - intros [[= ->] Himg']. congruence.
Qed.

(** X2: whatever the gesture and whether or not the zone is processing,
    [onFileSelect] is called at most once, and then with the first file
    the gesture carries. *)
Theorem gesture_selects_at_most_first_file (isProcessing : bool) (g : Gesture) :
  selected (dispatch isProcessing g) = [] \/
  exists file rest,
    gesture_files g = file :: rest /\ selected (dispatch isProcessing g) = [file].
Proof.
  destruct isProcessing; [left; now destruct g|].
  destruct g as [files|files|files|files]; destruct files as [|file rest];
    cbn; eauto.
  destruct (startsWith (type file) "image/"); eauto.
Qed.

(** X3: the zone is highlighted exactly when the last drag event was a
    drag-over: a drag-leave and a drop clear the highlight, also when
    the dropped file is rejected, and a change of the input leaves it as
    it was. *)
Theorem highlight_follows_last_drag_event (isDragging : bool)
    (events : list ZoneEvent) (e : ZoneEvent) :
  isDragging_after isDragging (events ++ [e])%list =
    match e with
    | DragOver => true
    | DragLeave | Drop _ => false
    | Change _ => isDragging_after isDragging events
    end /\
  zoneStyle (isDragging_after isDragging (events ++ [e])%list) =
    match e with
    | DragOver => zoneStyle true
    | DragLeave | Drop _ => zoneStyle false
    | Change _ => zoneStyle (isDragging_after isDragging events)
    end.
Proof.
  unfold isDragging_after. rewrite fold_left_app. now destruct e.
Qed.

(** X4: whenever the zone is mounted in the App, as the current screen
    or still animating out after the step has changed, it is not
    disabled. A gesture on it changes nothing when it carries no file or
    drops a file that is no image; otherwise it runs [handleFileSelect] on
    the first file, whatever the step is: the step becomes 'processing',
    the progress 10 with the uploading message, and the POST of that file
    is sent, in addition to what is in flight. When the zone is not
    mounted a gesture changes nothing. *)
Theorem gesture_in_app (g : Gesture) (w : World) :
  (mounted w <> Some Upload -> user_gesture g w = w) /\
  (mounted w = Some Upload ->
   match gesture_files g with
   | [] => user_gesture g w = w
   | file :: _ =>
       if is_drop g && negb (is_image file) then user_gesture g w = w
       else user_gesture g w = handleFileSelect file w /\
            step w (FileSelect file) = Some (user_gesture g w) /\
            App_children (app (user_gesture g w))
              = [ProcessingScreen 10 "Uploading your proof..."] /\
            inflight (user_gesture g w)
              = <[nextRequest w := PostGrade file]> (inflight w)
   end).
Proof.
  unfold user_gesture. split.
  - intros Hzone. destruct (mounted w) as [[| |]|]; congruence.
  - intros Hzone. rewrite Hzone.
    destruct g as [files|files|files|files]; destruct files as [|file rest];
      cbn; try reflexivity; unfold is_image;
      try destruct (startsWith (type file) "image/"); cbn; try reflexivity;
      rewrite Hzone; repeat split.
Qed.

(* ------------------------------------------------------------------ *)
(** ** ResultsView: more facts *)

Lemma string_length_app (s t : string) :
  String.length (s ++ t) = String.length s + String.length t.
Proof.
  induction s as [|c s IH]; [reflexivity|].
  rewrite string_app_cons. cbn. now rewrite IH.
Qed.

Lemma string_app_inj_suffix (s s' t t' : string) :
  String.length t = String.length t' -> s ++ t = s' ++ t' -> s = s' /\ t = t'.
Proof.
  intros Hlen. revert s'. induction s as [|c s IH]; intros [|c' s'] Heq.
  - now rewrite !string_app_nil_l in Heq.
  - rewrite string_app_nil_l in Heq. apply (f_equal String.length) in Heq.
    rewrite string_length_app in Heq. cbn in Heq. lia.
  - rewrite string_app_nil_l in Heq. apply (f_equal String.length) in Heq.
    rewrite string_length_app in Heq. cbn in Heq. lia.
  - rewrite !string_app_cons in Heq. injection Heq as -> Heq.
    destruct (IH s' Heq) as [-> ->]. split; reflexivity.
Qed.

(** The summary line as a function of the number of sections. *)
Lemma summary_by_count (results : GradingResult) (url : string) :
  summary (ResultsView results url) =
    match length (sections results) with
    | 0 => "Perfect! No errors found."
    | 1 => "1 issue identified"
    | n => pretty n ++ " issues identified"
    end.
Proof.
  unfold ResultsView; cbn [summary].
  destruct (length (sections results)) as [|[|n]]; reflexivity.
Qed.

(** X5: the summary line tells the number of issues: it is singular for
    exactly one issue, plural with the decimal count from two on, and two
    results with the same summary line have the same number of issues. *)
Theorem summary_tells_issue_count :
  (forall results url, length (sections results) = 1 ->
     summary (ResultsView results url) = "1 issue identified") /\
  (forall results url, 2 <= length (sections results) ->
     summary (ResultsView results url)
       = pretty (length (sections results)) ++ " issues identified") /\
  (forall results1 results2 url1 url2,
     summary (ResultsView results1 url1) = summary (ResultsView results2 url2) ->
     length (sections results1) = length (sections results2)).
Proof.
  split; [|split].
  - intros results url Hone. now rewrite summary_by_count, Hone.
  - intros results url Htwo. rewrite summary_by_count.
    destruct (length (sections results)) as [|[|n]]; [lia|lia|reflexivity].
  - intros results1 results2 url1 url2. rewrite !summary_by_count.
    assert (Hzero : forall n : nat,
              "Perfect! No errors found." <> pretty n ++ " issues identified").
    { intros n Heq. apply (f_equal last_char) in Heq.
      rewrite last_char_app in Heq by discriminate. discriminate Heq. }
    assert (Hone : forall n : nat,
              "1 issue identified" <> pretty n ++ " issues identified").
    { intros n Heq. destruct (pretty n) as [|c s]; [discriminate Heq|].
      rewrite string_app_cons in Heq. injection Heq as _ Heq.
      apply (f_equal String.length) in Heq. rewrite string_length_app in Heq.
      cbn in Heq. lia. }
    destruct (length (sections results1)) as [|[|n]];
      destruct (length (sections results2)) as [|[|m]];
      intros Heq; try reflexivity; try discriminate Heq;
      try (now apply Hzero in Heq); try (now apply Hone in Heq);
      try (symmetry in Heq; now (apply Hzero in Heq || apply Hone in Heq)).
    apply string_app_inj_suffix in Heq as [Heq _]; [|reflexivity].
    now apply (inj pretty) in Heq.
Qed.

(* ------------------------------------------------------------------ *)
(** ** App: what is shown, and the alerts *)

(** X6: in every reachable world the JSX hands [AnimatePresence] exactly
    one child: the zone, never disabled, in step 'upload'; the processing
    status with the stored progress and message in step 'processing'; the
    results view of the stored results, with their annotated image, in
    step 'results'. Exactly one screen is mounted: until the exit of the
    previous screen has ended it can be the screen of an earlier step,
    and once it has ended it is the screen of the current step. *)
Theorem one_screen_mounted (w : World) :
  reachable w ->
  (exists screen,
     App_children (app w) = [screen] /\
     match view w with
     | Upload => screen = UploadScreen false
     | Processing => screen = ProcessingScreen (progress (app w)) (message (app w))
     | Results =>
         exists data, results (app w) = Some data /\
           screen = ResultsScreen (ResultsView data (pdfAnnotatedUrl data))
     end) /\
  is_Some (mounted w) /\
  exists w', step w Present = Some w' /\ mounted w' = Some (view w) /\ app w' = app w.
Proof.
  intros Hreach.
  assert (Hkey : forall w0, reachable w0 -> child_key (app w0) = Some (view w0)).
  { intros w0 Hr0. pose proof (results_view_has_results w0 Hr0) as Hres.
    unfold child_key, view in *. destruct (currentStep (app w0)); try reflexivity.
    destruct (Hres eq_refl) as [data ->]. reflexivity. }
  split; [|split].
  - pose proof (results_view_has_results w Hreach) as Hresults.
    unfold App_children, view in *.
    destruct (currentStep (app w)); cbn; eauto.
    destruct (Hresults eq_refl) as [data Hdata]. rewrite Hdata. eauto.
  - revert w Hreach. apply (reachable_ind (fun w => is_Some (mounted w))).
    + cbn. eauto.
    + intros w e w' Hr IH Hstep.
      destruct e as [file| |interval|request r|];
        try (step_inv Hstep; first [assumption | eapply mk_is_Some; eassumption]).
      cbn in Hstep. apply (inj Some) in Hstep. subst w'.
      change (mounted (present w)) with (child_key (app w)).
      rewrite (Hkey w Hr). eauto.
  - exists (present w). cbn. rewrite (Hkey w Hreach). repeat split.
Qed.

Lemma one_screen_mounted_witness :
  reachable (after_events [FileSelect proof_png]) /\
  view (after_events [FileSelect proof_png]) = Processing /\
  mounted (after_events [FileSelect proof_png]) = Some Upload /\
  exists w',
    step (after_events [FileSelect proof_png]) Present = Some w' /\
    mounted w' = Some (view (after_events [FileSelect proof_png])).
Proof.
  assert (Hreach : reachable (after_events [FileSelect proof_png])).
  { apply reachable_after. vm_compute. eauto. }
  split; [exact Hreach|]. split; [reflexivity|]. split; [reflexivity|].
  destruct (one_screen_mounted _ Hreach) as (_ & _ & w' & Hstep & Hmounted & _).
  exists w'. split; [exact Hstep|exact Hmounted].
Defined.

(** With step 'results' and no results, a state no run reaches, nothing
    is mounted. *)
Lemma results_step_without_results_is_blank (id : option string) (p : Z) (m : string) :
  App_children {| currentStep := Results; jobId := id; progress := p;
                  message := m; results := None |} = [].
Proof. reflexivity. Qed.

Lemma step_alerts (w w' : World) (e : Event) :
  step w e = Some w' ->
  if reports_error e
  then exists msg, alerts w' = msg :: alerts w /\ view w' = Upload
  else alerts w' = alerts w.
Proof.
  intros Hstep. unfold view.
  step_inv Hstep; eauto;
    repeat match goal with
    | H : String.eqb _ _ = _ |- _ => rewrite H
    end; cbn; eauto.
  all: exfalso;
    match goal with
    | Hdone : String.eqb ?s "done" = _, Herr : negb _ && _ = _ |- _ =>
        rewrite Hdone in Herr; cbn in Herr; try congruence
    end.
Qed.

(** X7: the alerts shown are never taken back, and a run shows exactly
    one alert for each event that reports an error (a failed request or
    the status 'failed') and none for any other event. *)
Theorem one_alert_per_error (events : list Event) (w w' : World) :
  run w events = Some w' ->
  alerts w `suffix_of` alerts w' /\
  length (alerts w') = length (alerts w) + length (List.filter reports_error events).
Proof.
  revert w. induction events as [|e events IH]; intros w Hrun; cbn in Hrun.
  - simplify_eq. split; [reflexivity|cbn; lia].
  - destruct (step w e) as [w1|] eqn:Hstep; [|discriminate].
    destruct (IH w1 Hrun) as [Hsuffix Hlen].
    pose proof (step_alerts w w1 e Hstep) as Halert. cbn [List.filter].
    destruct (reports_error e).
    + destruct Halert as (msg & Hmsg & _). rewrite Hmsg in *. split.
      * etrans; [|exact Hsuffix]. now apply suffix_cons_r.
      * cbn in *. lia.
    + rewrite Halert in *. split; [assumption|lia].
Qed.

Lemma one_alert_per_error_witness :
  run start (second_job_polling ++ [Settle 2 Failure])%list
    = Some (after_events (second_job_polling ++ [Settle 2 Failure])%list) /\
  length (alerts (after_events (second_job_polling ++ [Settle 2 Failure])%list)) = 2.
Proof.
  assert (Hrun : run start (second_job_polling ++ [Settle 2 Failure])%list
                 = Some (after_events (second_job_polling ++ [Settle 2 Failure])%list))
    by (vm_compute; reflexivity).
  split; [exact Hrun|].
  destruct (one_alert_per_error _ _ _ Hrun) as [_ Hlen].
  exact Hlen.
Defined.

(** X8: a status response whose status is neither 'done' nor 'failed'
    (any other string: 'queued', 'processing', an unknown word) is
    accepted and stores its progress and message, whatever they are; the
    view, the job, the results, the alerts and the timers stay as they
    are and nothing is sent: the loop keeps polling. *)
Theorem other_status_keeps_polling (w : World) (request interval : nat)
    (id status : string) (newProgress : Z) (newMessage : string) :
  inflight w !! request = Some (GetStatus interval id) ->
  status <> "done" -> status <> "failed" ->
  exists w',
    step w (Settle request (JobStatus status newProgress newMessage)) = Some w' /\
    progress (app w') = newProgress /\ message (app w') = newMessage /\
    view w' = view w /\ jobId (app w') = jobId (app w) /\
    results (app w') = results (app w) /\
    alerts w' = alerts w /\ intervals w' = intervals w /\
    inflight w' = delete request (inflight w) /\
    nextRequest w' = nextRequest w.
Proof.
  intros Hreq Hdone Hfailed. cbn. rewrite Hreq. cbn.
  apply String.eqb_neq in Hdone, Hfailed. rewrite Hdone, Hfailed.
  eexists. split; [reflexivity|]. cbn. repeat split.
Qed.

Lemma other_status_keeps_polling_witness :
  exists w',
    step (after_events polled_once) (Settle 1 (JobStatus "queued" (-5) "Waiting")) = Some w' /\
    progress (app w') = (-5)%Z /\ intervals w' = intervals (after_events polled_once).
Proof.
  destruct (other_status_keeps_polling (after_events polled_once) 1 0 "42" "queued"
              (-5) "Waiting" ltac:(vm_compute; reflexivity)
              ltac:(discriminate) ltac:(discriminate))
    as (w' & Hstep & Hprogress & _ & _ & _ & _ & _ & Hintervals & _).
  exists w'. split; [exact Hstep|]. split; [exact Hprogress|exact Hintervals].
Defined.

(* ------------------------------------------------------------------ *)
(** ** App: where the job ids and the results come from *)

Lemma holds_id_step (w w' : World) (e : Event) (id : string) :
  step w e = Some w' -> holds_id w' id ->
  holds_id w id \/ id ∈ ids_sent [e].
Proof.
  intros Hstep Hholds. unfold holds_id in *.
  step_inv Hstep;
    destruct Hholds as [Hjob|[[i Hlive]|(r & i & [Hreq|Hreq])]];
    cbn in *; map_cases; simplify_eq;
    try (right; apply list_elem_of_here);
    left; eauto 8.
Qed.

Lemma results_step (w w' : World) (e : Event) (data : GradingResult) :
  step w e = Some w' -> results (app w') = Some data ->
  results (app w) = Some data \/ data ∈ results_sent [e].
Proof.
  intros Hstep Hdata.
  step_inv Hstep; simplify_eq; eauto; right; apply list_elem_of_here.
Qed.

Lemma ids_sent_cons (e : Event) (events : list Event) :
  ids_sent (e :: events) = (ids_sent [e] ++ ids_sent events)%list.
Proof. unfold ids_sent. cbn. now rewrite app_nil_r. Qed.

Lemma results_sent_cons (e : Event) (events : list Event) :
  results_sent (e :: events) = (results_sent [e] ++ results_sent events)%list.
Proof. unfold results_sent. cbn. now rewrite app_nil_r. Qed.

Lemma known_run (events : list Event) (w w' : World) :
  run w events = Some w' ->
  (forall id, holds_id w' id -> holds_id w id \/ id ∈ ids_sent events) /\
  (forall data, results (app w') = Some data ->
     results (app w) = Some data \/ data ∈ results_sent events).
Proof.
  revert w. induction events as [|e events IH]; intros w Hrun; cbn in Hrun.
  - simplify_eq. eauto.
  - destruct (step w e) as [w1|] eqn:Hstep; [|discriminate].
    destruct (IH w1 Hrun) as [Hids Hdata].
    rewrite ids_sent_cons, results_sent_cons.
    split.
    + intros id Hholds. destruct (Hids id Hholds) as [Hw1|Hsent].
      * destruct (holds_id_step w w1 e id Hstep Hw1) as [Hw|Hnow]; [now left|].
        right. apply elem_of_app. now left.
      * right. apply elem_of_app. now right.
    + intros data Hres. destruct (Hdata data Hres) as [Hw1|Hsent].
      * destruct (results_step w w1 e data Hstep Hw1) as [Hw|Hnow]; [now left|].
        right. apply elem_of_app. now left.
      * right. apply elem_of_app. now right.
Qed.

(** X9: the App makes up neither a job nor a result: after any run from
    the start, every job id it holds (in [jobId], in a live timer, in a
    status or results request in flight) was sent by the backend in a
    submit response of that run, and the results it holds were sent in a
    results response of that run. *)
Theorem ids_and_results_come_from_backend (events : list Event) (w : World) :
  run start events = Some w ->
  (forall id, holds_id w id -> id ∈ ids_sent events) /\
  (forall data, results (app w) = Some data -> data ∈ results_sent events).
Proof.
  intros Hrun. destruct (known_run events start w Hrun) as [Hids Hdata]. split.
  - intros id Hholds. destruct (Hids id Hholds) as [Hstart|Hsent]; [|assumption].
    destruct Hstart as [Hjob|[[i Hlive]|(r & i & [Hreq|Hreq])]];
      cbn in *; try discriminate; rewrite lookup_empty in *; discriminate.
  - intros data Hres. destruct (Hdata data Hres) as [Hstart|Hsent]; [|assumption].
    discriminate Hstart.
Qed.

Lemma ids_and_results_come_from_backend_witness :
  run start second_job_polling = Some (after_events second_job_polling) /\
  (forall id, holds_id (after_events second_job_polling) id ->
     id ∈ ids_sent second_job_polling).
Proof.
  assert (Hrun : run start second_job_polling = Some (after_events second_job_polling))
    by (vm_compute; reflexivity).
  split; [exact Hrun|].
  exact (proj1 (ids_and_results_come_from_backend _ _ Hrun)).
Defined.

(** One loop polls one job. *)
Lemma loop_polls_step (w w' : World) (e : Event) :
  timers_fresh w ->
  (forall interval id1 id2,
     loop_polls w interval id1 -> loop_polls w interval id2 -> id1 = id2) ->
  step w e = Some w' ->
  forall interval id1 id2,
    loop_polls w' interval id1 -> loop_polls w' interval id2 -> id1 = id2.
Proof.
  intros (Hlive & Hstatus & Hresults) IH Hstep interval id1 id2 H1 H2.
  assert (Hold : forall i id, loop_polls w i id -> i < nextInterval w).
  { intros i id [Hl|[r [Hr|Hr]]]; [eapply Hlive|eapply Hstatus|eapply Hresults]; eauto. }
  unfold loop_polls in *.
  step_inv Hstep;
    destruct H1 as [H1|[r1 [H1|H1]]]; destruct H2 as [H2|[r2 [H2|H2]]];
    cbn in *; map_cases; simplify_eq; try reflexivity;
    try (eapply IH; eauto 6; fail);
    try (exfalso;
         match goal with
         | H : inflight w !! _ = Some (GetStatus (nextInterval w) _) |- _ =>
             apply Hstatus in H; lia
         | H : inflight w !! _ = Some (GetResults (nextInterval w) _) |- _ =>
             apply Hresults in H as [H _]; lia
         end).
Qed.

(** X10: every request of a timer's callback is for the job the timer
    was started for, so the results are fetched for the job whose status
    was polled; and a results request is in flight only after the timer
    of its loop has been cleared. *)
Theorem one_loop_one_job (w : World) :
  reachable w ->
  (forall interval id1 id2,
     loop_polls w interval id1 -> loop_polls w interval id2 -> id1 = id2) /\
  (forall request interval id,
     inflight w !! request = Some (GetResults interval id) ->
     intervals w !! interval = None).
Proof.
  intros Hreach. split.
  - revert w Hreach.
    apply (reachable_ind (fun w => forall interval id1 id2,
             loop_polls w interval id1 -> loop_polls w interval id2 -> id1 = id2)).
    + intros interval id1 id2 [H1|[r [H1|H1]]]; cbn in H1;
        rewrite lookup_empty in H1; discriminate H1.
    + intros w e w' Hreach IH Hstep.
      eapply loop_polls_step; eauto using timers_fresh_reachable.
  - intros request interval id Hreq.
    destruct (timers_fresh_reachable w Hreach) as (_ & _ & Hresults).
    now destruct (Hresults _ _ _ Hreq).
Qed.

Lemma one_loop_one_job_witness :
  reachable (after_events job_done) /\
  (forall id, loop_polls (after_events job_done) 0 id -> "42" = id) /\
  intervals (after_events job_done) !! 0 = None.
Proof.
  assert (Hreach : reachable (after_events job_done)).
  { apply reachable_after. vm_compute. eauto. }
  split; [exact Hreach|].
  destruct (one_loop_one_job _ Hreach) as [Hagree Hcleared]. split.
  - intros id. apply Hagree. right. exists 2. right. vm_compute. reflexivity.
  - apply (Hcleared 2 0 "42"). vm_compute. reflexivity.
Defined.

(* ------------------------------------------------------------------ *)
(** ** App: one session from start to end *)

Lemma keeps_polling_eqb (body : string * Z * string) :
  keeps_polling body = true ->
  String.eqb body.1.1 "done" = false /\ String.eqb body.1.1 "failed" = false.
Proof.
  unfold keeps_polling; cbn. intros Hkeeps.
  apply negb_true_iff, orb_false_iff in Hkeeps. exact Hkeeps.
Qed.

(** Polling rounds answered in turn leave the loop as it was and show the
    last progress reported. *)
Lemma poll_rounds_run (interval : nat) (id : string)
    (bodies : list (string * Z * string)) (w : World) :
  intervals w !! interval = Some id ->
  inflight w = ∅ ->
  forallb keeps_polling bodies = true ->
  exists w',
    run w (poll_rounds interval (nextRequest w) bodies) = Some w' /\
    intervals w' = intervals w /\ inflight w' = ∅ /\
    nextRequest w' = nextRequest w + length bodies /\
    nextInterval w' = nextInterval w /\
    alerts w' = alerts w /\
    view w' = view w /\ jobId (app w') = jobId (app w) /\
    results (app w') = results (app w) /\
    (progress (app w'), message (app w')) =
      match last bodies with
      | Some body => (body.1.2, body.2)
      | None => (progress (app w), message (app w))
      end.
Proof.
  revert w. induction bodies as [|body bodies IH]; intros w Hlive Hempty Hkeep.
  - exists w. cbn. rewrite Nat.add_0_r. repeat split. exact Hempty.
  - cbn in Hkeep. apply andb_true_iff in Hkeep as [Hbody Hkeep].
    apply keeps_polling_eqb in Hbody as [Hdone Hfailed].
    set (w1 := setMessage body.2 (setProgress body.1.2
                 (settle (nextRequest w) (fetch (GetStatus interval id) w)))).
    assert (Hstep : run w [Tick interval;
                           Settle (nextRequest w) (JobStatus body.1.1 body.1.2 body.2)]
                    = Some w1).
    { cbn. unfold tick. rewrite Hlive. cbn. rewrite lookup_insert_eq. cbn.
      now rewrite Hdone, Hfailed. }
    destruct (IH w1) as (w' & Hrun & Hi & Hf & Hn & Hni & Ha & Hv & Hj & Hr & Hp).
    { exact Hlive. }
    { cbn. rewrite Hempty. apply delete_insert_id, lookup_empty. }
    { exact Hkeep. }
    exists w'. split.
    { change (poll_rounds interval (nextRequest w) (body :: bodies))
        with ([Tick interval;
               Settle (nextRequest w) (JobStatus body.1.1 body.1.2 body.2)]
              ++ poll_rounds interval (nextRequest w1) bodies)%list.
      now rewrite run_app, Hstep. }
    clear Hstep IH. rewrite Hi, Hf, Hn, Hni, Ha, Hv, Hj, Hr, Hp.
    subst w1. cbn. repeat split; try lia.
    destruct bodies as [|body' bodies]; [reflexivity|].
    change (last (body :: body' :: bodies)) with (last (body' :: bodies)).
    destruct (last (body' :: bodies)) eqn:Hlast; [reflexivity|].
    apply last_None in Hlast. discriminate Hlast.
Qed.

Lemma polling_session_run (w : World) (file : File) (id : string)
    (bodies : list (string * Z * string)) :
  quiescent w ->
  forallb keeps_polling bodies = true ->
  exists w',
    run w (polling_session w file id bodies) = Some w' /\
    intervals w' = {[ nextInterval w := id ]} /\ inflight w' = ∅ /\
    nextRequest w' = S (nextRequest w) + length bodies /\
    nextInterval w' = S (nextInterval w) /\
    alerts w' = alerts w /\
    view w' = Processing /\ jobId (app w') = Some id /\
    results (app w') = results (app w) /\
    (progress (app w'), message (app w')) =
      match last bodies with
      | Some body => (body.1.2, body.2)
      | None => (10%Z, "Uploading your proof...")
      end.
Proof.
  intros (Hview & Hintervals & Hinflight) Hkeep. unfold view in Hview.
  set (w0 := pollJobStatus id (setJobId (Some id)
               (settle (nextRequest w)
                  (present (handleFileSelect file (present w)))))).
  assert (Hstart : run w [Present; FileSelect file; Present;
                          Settle (nextRequest w) (JobCreated id)]
                   = Some w0).
  { cbn. unfold child_key. rewrite Hview. cbn. now rewrite lookup_insert_eq. }
  destruct (poll_rounds_run (nextInterval w) id bodies w0)
    as (w' & Hrun & Hi & Hf & Hn & Hni & Ha & Hv & Hj & Hr & Hp).
  { cbn. apply lookup_insert_eq. }
  { cbn. rewrite Hinflight. apply delete_insert_id, lookup_empty. }
  { exact Hkeep. }
  exists w'. split.
  { change (polling_session w file id bodies)
      with ([Present; FileSelect file; Present;
             Settle (nextRequest w) (JobCreated id)]
            ++ poll_rounds (nextInterval w) (nextRequest w0) bodies)%list.
    now rewrite run_app, Hstart. }
  clear Hstart. rewrite Hi, Hf, Hn, Hni, Ha, Hv, Hj, Hr, Hp.
  subst w0. cbn. rewrite Hintervals, insert_empty. repeat split.
Qed.

(** X11: a session run alone ends on the results. From a world where
    nothing is pending, select a file, let the backend answer with a job
    id, with any number of status bodies that are neither 'done' nor
    'failed' and then with 'done' and the results: the App shows the
    results view of exactly these results, holds the job id and the
    progress and message of the 'done' body, has raised no alert and has
    no timer and no request left; the reset then restores the initial
    state, again with nothing pending. *)
Theorem grading_session_shows_results (w : World) (file : File) (id : string)
    (bodies : list (string * Z * string)) (done : Z * string) (data : GradingResult) :
  quiescent w ->
  forallb keeps_polling bodies = true ->
  exists w',
    run w (grading_session w file id bodies done data) = Some w' /\
    app w' = {| currentStep := Results; jobId := Some id; progress := done.1;
                message := done.2; results := Some data |} /\
    App_children (app w') = [ResultsScreen (ResultsView data (pdfAnnotatedUrl data))] /\
    mounted w' = Some Results /\
    intervals w' = ∅ /\ inflight w' = ∅ /\ alerts w' = alerts w /\
    exists w'', step w' Reset = Some w'' /\ app w'' = initial /\ quiescent w''.
Proof.
  intros Hquiet Hkeep.
  destruct (polling_session_run w file id bodies Hquiet Hkeep)
    as (w1 & Hrun & Hi & Hf & Hn & Hni & Ha & Hv & Hj & Hr & _).
  unfold grading_session. rewrite run_app, Hrun.
  change (S (S (nextRequest w)) + length bodies) with (S (S (nextRequest w) + length bodies)).
  rewrite <- Hn. cbn. unfold tick. rewrite Hi, lookup_singleton_eq. cbn.
  rewrite lookup_insert_eq. cbn. rewrite lookup_insert_eq. cbn.
  eexists. split; [reflexivity|]. cbn.
  rewrite Hi, Hf, Hj, Ha.
  rewrite delete_singleton_eq.
  rewrite (delete_insert_id _ (nextRequest w1)) by apply lookup_empty.
  rewrite (delete_insert_id _ (S (nextRequest w1))) by apply lookup_empty.
  repeat split.
  eexists. split; [reflexivity|]. unfold quiescent, view. cbn.
  rewrite Hi, Hf, delete_singleton_eq.
  rewrite (delete_insert_id _ (nextRequest w1)) by apply lookup_empty.
  rewrite (delete_insert_id _ (S (nextRequest w1))) by apply lookup_empty.
  repeat split.
Qed.

Lemma grading_session_shows_results_witness :
  quiescent start /\
  exists w',
    run start (grading_session start proof_png "42"
                 [("processing", 30%Z, "Reading"); ("processing", 70%Z, "Grading")]
                 (100%Z, "Done") grade_B_plus) = Some w' /\
    App_children (app w')
      = [ResultsScreen (ResultsView grade_B_plus (pdfAnnotatedUrl grade_B_plus))].
Proof.
  assert (Hquiet : quiescent start) by (repeat split).
  split; [exact Hquiet|].
  destruct (grading_session_shows_results start proof_png "42"
              [("processing", 30%Z, "Reading"); ("processing", 70%Z, "Grading")]
              (100%Z, "Done") grade_B_plus Hquiet eq_refl)
    as (w' & Hrun & _ & Hscreen & _).
  exists w'. split; [exact Hrun|exact Hscreen].
Defined.

(** X12: a session run alone that fails ends with nothing pending. From
    a world where nothing is pending, whether the submission fails, or
    after any number of status bodies that keep polling a poll fails, the
    status 'failed' arrives, or the results request fails after 'done':
    the view is 'upload' again with no timer and no request left, exactly
    one alert has been added (with the text of that code path), and the
    results held before are untouched; after a submit response the job id
    is held on. *)
Theorem failed_session_leaves_nothing_pending (w : World) (file : File) (id : string)
    (bodies : list (string * Z * string)) :
  quiescent w ->
  forallb keeps_polling bodies = true ->
  (exists w',
     run w [Present; FileSelect file; Settle (nextRequest w) Failure] = Some w' /\
     quiescent w' /\
     alerts w' = "Failed to upload file. Please try again." :: alerts w /\
     jobId (app w') = jobId (app w) /\ results (app w') = results (app w)) /\
  (exists w',
     run w (failing_session w file id bodies Failure) = Some w' /\
     quiescent w' /\
     alerts w' = "Failed to check status. Please try again." :: alerts w /\
     jobId (app w') = Some id /\ results (app w') = results (app w)) /\
  (forall newProgress newMessage, exists w',
     run w (failing_session w file id bodies (JobStatus "failed" newProgress newMessage))
       = Some w' /\
     quiescent w' /\
     alerts w' = "Processing failed. Please try again." :: alerts w /\
     jobId (app w') = Some id /\ results (app w') = results (app w) /\
     progress (app w') = newProgress /\ message (app w') = newMessage) /\
  (forall done : Z * string, exists w',
     run w (polling_session w file id bodies ++
            [Tick (nextInterval w);
             Settle (S (nextRequest w) + length bodies) (JobStatus "done" done.1 done.2);
             Settle (S (S (nextRequest w) + length bodies)) Failure])%list = Some w' /\
     quiescent w' /\
     alerts w' = "Failed to check status. Please try again." :: alerts w /\
     jobId (app w') = Some id /\ results (app w') = results (app w)).
Proof.
  intros Hquiet Hkeep.
  destruct (polling_session_run w file id bodies Hquiet Hkeep)
    as (w1 & Hrun & Hi & Hf & Hn & Hni & Ha & Hv & Hj & Hr & _).
  destruct Hquiet as (Hview & Hintervals & Hinflight). unfold view in Hview.
  split; [|split; [|split]].
  - cbn. unfold child_key. rewrite Hview. cbn. rewrite lookup_insert_eq. cbn.
    eexists. split; [reflexivity|]. unfold quiescent, view. cbn.
    rewrite Hintervals, Hinflight.
    rewrite delete_insert_id by apply lookup_empty. repeat split.
  - unfold failing_session. rewrite run_app, Hrun, <- Hn.
    cbn. unfold tick. rewrite Hi, lookup_singleton_eq. cbn.
    rewrite lookup_insert_eq. cbn.
    eexists. split; [reflexivity|]. unfold quiescent, view. cbn.
    rewrite Hi, Hf, Ha, Hj, Hr, delete_singleton_eq.
    rewrite delete_insert_id by apply lookup_empty. repeat split.
  - intros newProgress newMessage.
    unfold failing_session. rewrite run_app, Hrun, <- Hn.
    cbn. unfold tick. rewrite Hi, lookup_singleton_eq. cbn.
    rewrite lookup_insert_eq. cbn.
    eexists. split; [reflexivity|]. unfold quiescent, view. cbn.
    rewrite Hi, Hf, Ha, Hj, Hr, delete_singleton_eq.
    rewrite delete_insert_id by apply lookup_empty. repeat split.
  - intros done. rewrite run_app, Hrun, <- Hn.
    cbn. unfold tick. rewrite Hi, lookup_singleton_eq. cbn.
    rewrite lookup_insert_eq. cbn. rewrite lookup_insert_eq. cbn.
    eexists. split; [reflexivity|]. unfold quiescent, view. cbn.
    rewrite Hi, Hf, Ha, Hj, Hr, delete_singleton_eq, delete_empty.
    rewrite (delete_insert_id _ (nextRequest w1)) by apply lookup_empty.
    rewrite (delete_insert_id _ (S (nextRequest w1))) by apply lookup_empty.
    repeat split.
Qed.

Lemma failed_session_leaves_nothing_pending_witness :
  quiescent start /\
  exists w',
    run start (failing_session start proof_png "42"
                 [("queued", 0%Z, "Queued")] (JobStatus "failed" 55 "OCR error")) = Some w' /\
    quiescent w' /\ alerts w' = ["Processing failed. Please try again."].
Proof.
  assert (Hquiet : quiescent start) by (repeat split).
  split; [exact Hquiet|].
  destruct (failed_session_leaves_nothing_pending start proof_png "42"
              [("queued", 0%Z, "Queued")] Hquiet eq_refl)
    as (_ & _ & Hfailed & _).
  destruct (Hfailed 55%Z "OCR error") as (w' & Hrun & Hq & Halerts & _).
  exists w'. split; [exact Hrun|]. split; [exact Hq|exact Halerts].
Defined.
